(** * Finite state automata with Moore and Mealy output (automaton.py)

    A shallow embedding of [State], [Automaton], [MooreAutomaton] and
    [MealyAutomaton], followed by the properties of construction, stepping,
    the cursor accessor and the output hooks.

    Modelling decisions.
    - State names and input symbols are hashable Python values; [value]
      covers the ones the library is used with ([None], integers, strings).
    - [State] objects are shared and mutated while they are aliased: the
      cursor is taken (line 44) before the successors are wired (line 45),
      and successors are references to other [State] objects.  They live in
      a store, a list indexed by address; every reference is an address.
    - [self.states] is an insertion-ordered dict ([odict]); the loop of
      [__connect_states] walks it in that order.  [transition] and
      [successors] are only looked up and updated: [gmap].
    - Exceptions leave the mutations done so far in place: the monad [M]
      returns the world also when it raises.
    - The output callback is caller code.  It is modelled by what the
      automaton can observe of it: each invocation is appended to a trace,
      and the callback either returns or raises, decided by the earlier
      invocations and its arguments.  It is assumed not to touch the
      automaton. *)

From stdpp Require Import gmap strings list fin_maps.
From Stdlib Require Import ZArith.

Set Warnings "-clear-no-such-hyp".

Open Scope Z_scope.
Open Scope nat_scope.

(** ** Python values, exceptions *)

Inductive value : Type :=
| VNone
| VInt (z : Z)
| VStr (s : string).

#[global] Instance value_eq_dec : EqDecision value.
Proof. solve_decision. Defined.

Definition value_enc (v : value) : unit + (Z + string) :=
  match v with
  | VNone => inl ()
  | VInt z => inr (inl z)
  | VStr s => inr (inr s)
  end.

Definition value_dec (x : unit + (Z + string)) : value :=
  match x with
  | inl _ => VNone
  | inr (inl z) => VInt z
  | inr (inr s) => VStr s
  end.

#[global] Instance value_countable : Countable value.
Proof. apply (inj_countable' value_enc value_dec). by intros []. Defined.

(** Addresses of [State] objects in the store. *)
Definition addr : Type := nat.

(** [KeyError] and [ValueError] are the two exceptions the library raises;
    [AttributeError] is Python's for reading [__output_func] before it is
    assigned; [Raised] is whatever the output callback raises.  [BadRef] is
    not a Python exception: it is the outcome of following an address that
    is not in the store, which a Python reference cannot be.  The theorems
    below show that [AttributeError] and [BadRef] never arise. *)
Inductive exn : Type :=
| KeyError (key : value)
| ValueError (msg : string)
| AttributeError (attr : string)
| Raised (payload : value)
| BadRef (p : addr).

Inductive result (A : Type) : Type :=
| Ok (a : A)
| Err (e : exn).
Arguments Ok {A} a.
Arguments Err {A} e.

Definition is_Ok {A} (r : result A) : bool :=
  match r with Ok _ => true | Err _ => false end.

Definition result_bind {A B} (r : result A) (k : A -> result B) : result B :=
  match r with
  | Ok a => k a
  | Err e => Err e
  end.

(** ** Insertion-ordered dict *)

Module odict.

Definition t (V : Type) : Type := list (value * V).

Fixpoint get {V} (d : t V) (k : value) : option V :=
  match d with
  | [] => None
  | (k', v) :: rest => if decide (k = k') then Some v else get rest k
  end.

(** [d[k] = v]: an existing key keeps its position. *)
Fixpoint set {V} (d : t V) (k : value) (v : V) : t V :=
  match d with
  | [] => [(k, v)]
  | (k', v') :: rest =>
      if decide (k = k') then (k', v) :: rest else (k', v') :: set rest k v
  end.

(** [d[k]], raising [KeyError]. *)
Definition getitem {V} (d : t V) (k : value) : result V :=
  match get d k with
  | Some v => Ok v
  | None => Err (KeyError k)
  end.

End odict.

(** ** class State *)

Module State.

Record t : Type := mk {
  state : value;
  successors : gmap value addr
}.

(** Lines 9-11. *)
Definition __init__ (name : value) : t :=
  {| state := name; successors := ∅ |}.

(** Lines 13-14, on the object itself. *)
Definition set_successor_obj (self : t) (entry : value) (successor : addr) : t :=
  {| state := state self;
     successors := <[entry := successor]> (successors self) |}.

(** Lines 13-14, through a reference. *)
Definition set_successor (h : list t) (self : addr) (entry : value)
    (successor : addr) : result (list t) :=
  match h !! self with
  | Some s => Ok (<[self := set_successor_obj s entry successor]> h)
  | None => Err (BadRef self)
  end.

(** Lines 16-20: [self.successors.get(entry, self)]. *)
Definition process (h : list t) (self : addr) (entry : value) : result addr :=
  match h !! self with
  | Some s => Ok (default self (successors s !! entry))
  | None => Err (BadRef self)
  end.

End State.

Abbreviation store := (list State.t).
Abbreviation table := (gmap (value * value) value).

(** ** The output callback and the trace of its invocations *)

(** One invocation: the positional arguments. *)
Definition call : Type := list value.
Definition trace : Type := list call.

(** Given the earlier invocations and the arguments: [None] when the
    callback returns, [Some e] when it raises [e]. *)
Definition callback : Type := trace -> call -> option exn.

(** ** class Automaton and its two subclasses *)

(** The class of the object: it decides which hooks are overridden. *)
Inductive klass : Type :=
| Automaton
| MooreAutomaton
| MealyAutomaton.

(** The attributes of an automaton object, with the [State] objects it
    owns.  [output_func] is [None] until a subclass constructor assigns
    it. *)
Record automaton : Type := mk_automaton {
  class : klass;
  heap : store;
  states : odict.t addr;
  input_alphabet : list value;
  curr_state : addr;
  output_func : option callback
}.

(** The world a method runs in: the object and the trace of callback
    invocations so far. *)
Definition world : Type := automaton * trace.

(** State and exceptions; the world is returned on both outcomes. *)
Definition M (A : Type) : Type := world -> result A * world.

Definition ret {A} (a : A) : M A := fun w => (Ok a, w).

Definition raise {A} (e : exn) : M A := fun w => (Err e, w).

Definition bind {A B} (m : M A) (k : A -> M B) : M B :=
  fun w =>
    match m w with
    | (Ok a, w') => k a w'
    | (Err e, w') => (Err e, w')
    end.

Definition lift {A} (r : result A) : M A := fun w => (r, w).

Definition self : M automaton := fun w => (Ok (fst w), w).

Notation "'let*' x ':=' m 'in' k" := (bind m (fun x => k))
  (at level 10, x pattern, m at level 100, k at level 200).

(** [self.__curr_state = p] *)
Definition with_curr_state (a : automaton) (p : addr) : automaton :=
  {| class := class a; heap := heap a; states := states a;
     input_alphabet := input_alphabet a; curr_state := p;
     output_func := output_func a |}.

Definition set_curr_state (p : addr) : M unit :=
  fun w => (Ok tt, (with_curr_state (fst w) p, snd w)).

(** [self.__output_func(args...)]: the invocation is recorded, then the
    callback returns or raises. *)
Definition call_output_func (args : call) : M unit :=
  fun w =>
    match output_func (fst w) with
    | None => (Err (AttributeError "__output_func"), w)
    | Some f =>
        let w' := (fst w, snd w ++ [args]) in
        match f (snd w) args with
        | None => (Ok tt, w')
        | Some e => (Err e, w')
        end
    end.

(** Line 42: the dict comprehension [{name: State(name) for name in states}],
    one new [State] object per element, in iteration order. *)
Fixpoint make_states (names : list value) (h : store) (d : odict.t addr)
    : store * odict.t addr :=
  match names with
  | [] => (h, d)
  | name :: rest =>
      make_states rest (h ++ [State.__init__ name]) (odict.set d name (length h))
  end.

(** Lines 64-68: the inner loop of [__connect_states] for one item
    [(name, state)] of [self.states]. *)
Fixpoint connect_entries (d : odict.t addr) (transition : table)
    (name : value) (state : addr) (entries : list value) (h : store)
    : result store :=
  match entries with
  | [] => Ok h
  | entry :: rest =>
      match transition !! (name, entry) with
      | Some successor_name =>
          result_bind (odict.getitem d successor_name) (fun successor =>
          result_bind (State.set_successor h state entry successor) (fun h' =>
          connect_entries d transition name state rest h'))
      | None => connect_entries d transition name state rest h
      end
  end.

(** Lines 63-68: the outer loop, over [self.states.items()]. *)
Fixpoint connect_items (d : odict.t addr) (transition : table)
    (input_alphabet : list value) (items : list (value * addr)) (h : store)
    : result store :=
  match items with
  | [] => Ok h
  | (name, state) :: rest =>
      result_bind (connect_entries d transition name state input_alphabet h)
        (fun h' => connect_items d transition input_alphabet rest h')
  end.

(** Lines 62-68. *)
Definition Automaton__connect_states (d : odict.t addr)
    (input_alphabet : list value) (transition : table) (h : store)
    : result store :=
  connect_items d transition input_alphabet d h.

(** Lines 30-45, for an object of class [c]. *)
Definition Automaton__init__ (c : klass) (states : list value)
    (init_state : value) (input_alphabet : list value) (transition : table)
    : result automaton :=
  let '(h, d) := make_states states [] [] in
  result_bind (odict.getitem d init_state) (fun cur =>
  result_bind (Automaton__connect_states d input_alphabet transition h) (fun h' =>
  Ok {| class := c; heap := h'; states := d;
        input_alphabet := input_alphabet; curr_state := cur;
        output_func := None |})).

(** Lines 54-55: the getter of the [current_state] property. *)
Definition Automaton__get_state : M value :=
  let* a := self in
  match heap a !! curr_state a with
  | Some s => ret (State.state s)
  | None => raise (BadRef (curr_state a))
  end.

(** Lines 57-58: the setter of the [current_state] property. *)
Definition Automaton__set_state (new_state : value) : M unit :=
  let* a := self in
  let* p := lift (odict.getitem (states a) new_state) in
  set_curr_state p.

(** Lines 70-74: the hooks of the base class. *)
Definition Automaton_enter_state (entry : value) : M unit := ret tt.
Definition Automaton_exit_state (entry : value) : M unit := ret tt.

(** Lines 95-96. *)
Definition MooreAutomaton_enter_state (entry : value) : M unit :=
  let* name := Automaton__get_state in
  call_output_func [name].

(** Lines 112-113. *)
Definition MealyAutomaton_exit_state (entry : value) : M unit :=
  let* name := Automaton__get_state in
  call_output_func [name; entry].

(** [self._enter_state(entry)]: method resolution on the class of [self];
    only [MooreAutomaton] overrides the enter hook. *)
Definition _enter_state (entry : value) : M unit :=
  let* a := self in
  match class a with
  | MooreAutomaton => MooreAutomaton_enter_state entry
  | Automaton | MealyAutomaton => Automaton_enter_state entry
  end.

(** [self._exit_state(entry)]: only [MealyAutomaton] overrides the exit
    hook. *)
Definition _exit_state (entry : value) : M unit :=
  let* a := self in
  match class a with
  | MealyAutomaton => MealyAutomaton_exit_state entry
  | Automaton | MooreAutomaton => Automaton_exit_state entry
  end.

(** Lines 47-52. *)
Definition Automaton_process (entry : value) : M unit :=
  let* a := self in
  if negb (bool_decide (entry ∈ input_alphabet a)) then
    raise (ValueError "Unspecified input, not accepted by this automaton!")
  else
    let* _ := _exit_state entry in
    let* a := self in
    let* next := lift (State.process (heap a) (curr_state a) entry) in
    let* _ := set_curr_state next in
    _enter_state entry.

(** [self.__output_func = output_func] *)
Definition set_output_func (a : automaton) (f : callback) : automaton :=
  {| class := class a; heap := heap a; states := states a;
     input_alphabet := input_alphabet a; curr_state := curr_state a;
     output_func := Some f |}.

(** What the caller of a constructor gets from the run of [__init__]: the
    object when it returned, no object when it raised; the trace stays in
    both cases. *)
Definition new (r : result unit * world) : result automaton * trace :=
  match r with
  | (Ok _, (a, t)) => (Ok a, t)
  | (Err e, (_, t)) => (Err e, t)
  end.

(** Lines 86-93. *)
Definition MooreAutomaton__init__ (states : list value) (init_state : value)
    (input_alphabet : list value) (transition : table) (output_func : callback)
    (t : trace) : result automaton * trace :=
  match Automaton__init__ MooreAutomaton states init_state input_alphabet
          transition with
  | Err e => (Err e, t)
  | Ok a => new (_enter_state VNone (set_output_func a output_func, t))
  end.

(** Lines 103-110. *)
Definition MealyAutomaton__init__ (states : list value) (init_state : value)
    (input_alphabet : list value) (transition : table) (output_func : callback)
    (t : trace) : result automaton * trace :=
  match Automaton__init__ MealyAutomaton states init_state input_alphabet
          transition with
  | Err e => (Err e, t)
  | Ok a => new (_enter_state VNone (set_output_func a output_func, t))
  end.

(** ** The operations a caller has on an automaton object *)

Inductive op : Type :=
| Process (entry : value)
| SetCurrentState (name : value)
| GetCurrentState.

Definition exec (o : op) : M unit :=
  match o with
  | Process entry => Automaton_process entry
  | SetCurrentState name => Automaton__set_state name
  | GetCurrentState => let* _ := Automaton__get_state in ret tt
  end.

(** The worlds a caller can be in after constructing an automaton of one
    of the three classes from [(sts, i, al, tr)] and then performing any
    operations on it, whether they return or raise. *)
Inductive reachable (sts : list value) (i : value) (al : list value)
    (tr : table) : world -> Prop :=
| reach_Automaton a t0 :
    Automaton__init__ Automaton sts i al tr = Ok a ->
    reachable sts i al tr (a, t0)
| reach_Moore f t0 a t1 :
    MooreAutomaton__init__ sts i al tr f t0 = (Ok a, t1) ->
    reachable sts i al tr (a, t1)
| reach_Mealy f t0 a t1 :
    MealyAutomaton__init__ sts i al tr f t0 = (Ok a, t1) ->
    reachable sts i al tr (a, t1)
| reach_exec o w :
    reachable sts i al tr w ->
    reachable sts i al tr (snd (exec o w)).

(** ** Vocabulary of the properties *)

(** The cursor refers to one of the objects in [self.states]. *)
Definition cursor_in_states (a : automaton) : Prop :=
  exists name, odict.get (states a) name = Some (curr_state a).

(** What [__connect_states] leaves in the successors of the state named
    [name], read at [entry]. *)
Definition compiled (d : odict.t addr) (al : list value) (tr : table)
    (name entry : value) : option addr :=
  if decide (entry ∈ al) then tr !! (name, entry) ≫= odict.get d else None.
Arguments compiled : simpl never.

(** What line 42 establishes: one fresh object per key, at its own
    address. *)
Definition fresh (h : store) (d : odict.t addr) : Prop :=
  NoDup d.*1 /\
  forall n p, odict.get d n = Some p -> h !! p = Some (State.__init__ n).

(** What a successful [Automaton.__init__] establishes. *)
Record built (c : klass) (sts : list value) (i : value) (al : list value)
    (tr : table) (a : automaton) : Prop := {
  built_class : class a = c;
  built_output_func : output_func a = None;
  built_alphabet : input_alphabet a = al;
  built_keys : forall n, is_Some (odict.get (states a) n) <-> n ∈ sts;
  built_cursor : odict.get (states a) i = Some (curr_state a);
  built_objects : forall n p, odict.get (states a) n = Some p ->
    exists s, heap a !! p = Some s /\ State.state s = n /\
      forall e, State.successors s !! e = compiled (states a) al tr n e
}.

(** The successor [State.process] returns from the object [s] at [p]. *)
Definition next_of (p : addr) (s : State.t) (entry : value) : addr :=
  default p (State.successors s !! entry).

Definition invalid_input : exn :=
  ValueError "Unspecified input, not accepted by this automaton!".

(** What holds of the object in every world reachable after constructing
    it from [(sts, i, al, tr)]: the keys of [self.states] are the declared
    names, each key refers to the object of that name, whose successors
    are the compiled table, the cursor is one of these objects, and a
    subclass object has its callback. *)
Record inv (sts : list value) (al : list value) (tr : table)
    (a : automaton) : Prop := {
  inv_alphabet : input_alphabet a = al;
  inv_keys : forall n, is_Some (odict.get (states a) n) <-> n ∈ sts;
  inv_objects : forall n p, odict.get (states a) n = Some p ->
    exists s, heap a !! p = Some s /\ State.state s = n /\
      forall e, State.successors s !! e = compiled (states a) al tr n e;
  inv_cursor : cursor_in_states a;
  inv_output_func : class a = Automaton \/ is_Some (output_func a)
}.

(** The transition function the automaton computes from its table, with
    the two defaults of the code: a symbol outside the alphabet is
    rejected, and a missing entry is a self-loop; both leave the state
    where it is. *)
Definition delta (al : list value) (tr : table) (n e : value) : value :=
  if decide (e ∈ al) then default n (tr !! (n, e)) else n.

(** The invocations of a Moore callback along the inputs [es], from the
    state named [n]: the state entered, for each accepted symbol. *)
Fixpoint moore_outputs (al : list value) (tr : table) (n : value)
    (es : list value) : trace :=
  match es with
  | [] => []
  | e :: rest =>
      if decide (e ∈ al)
      then [delta al tr n e] :: moore_outputs al tr (delta al tr n e) rest
      else moore_outputs al tr n rest
  end.

(** The invocations of a Mealy callback along the inputs [es]: the state
    left and the symbol, for each accepted symbol. *)
Fixpoint mealy_outputs (al : list value) (tr : table) (n : value)
    (es : list value) : trace :=
  match es with
  | [] => []
  | e :: rest =>
      if decide (e ∈ al)
      then [n; e] :: mealy_outputs al tr (delta al tr n e) rest
      else mealy_outputs al tr n rest
  end.

(** The invocations an object of class [c] makes along [es]. *)
Definition outputs_of (c : klass) (al : list value) (tr : table) (n : value)
    (es : list value) : trace :=
  match c with
  | Automaton => []
  | MooreAutomaton => moore_outputs al tr n es
  | MealyAutomaton => mealy_outputs al tr n es
  end.

(** The callback of the object, if it has one, never raises. *)
Definition callback_returns (a : automaton) : Prop :=
  forall f, output_func a = Some f -> forall t args, f t args = None.

(** ** Example automata *)

Definition st_A : value := VStr "A".
Definition st_B : value := VStr "B".

(** States {A, B}, alphabet {0, 1}, transitions (A,0)->B and (B,1)->A. *)
Definition ex_states : list value := [st_A; st_B].
Definition ex_alphabet : list value := [VInt 0; VInt 1].
Definition ex_transition : table :=
  <[(st_A, VInt 0) := st_B]> (<[(st_B, VInt 1) := st_A]> ∅).

(** The objects the constructors build from it. *)
Definition ex_heap : store :=
  [ {| State.state := st_A; State.successors := <[VInt 0 := 1]> ∅ |};
    {| State.state := st_B; State.successors := <[VInt 1 := 0]> ∅ |} ].

Definition ex_object (c : klass) (f : option callback) (cur : addr) : automaton :=
  {| class := c; heap := ex_heap; states := [(st_A, 0); (st_B, 1)];
     input_alphabet := ex_alphabet; curr_state := cur; output_func := f |}.

(** A callback that always returns, and one that returns the first time
    it is invoked and raises every time after. *)
Definition quiet : callback := fun _ _ => None.
Definition once : callback :=
  fun t _ => match t with [] => None | _ :: _ => Some (Raised VNone) end.

(** Feeding a sequence of inputs, one [process] call each. *)
Definition run (entries : list value) (w : world) : world :=
  foldl (fun w entry => (Automaton_process entry w).2) w entries.

(** ** The ordered dict *)

Section odict_facts.

Context {V : Type}.
Implicit Types (d : odict.t V) (k : value) (v : V).

Lemma odict_get_list_to_map d k :
  odict.get d k = (list_to_map d : gmap value V) !! k.
Proof.
  induction d as [|[k' v'] d IH]; simpl; [done|].
  destruct (decide (k = k')) as [->|Hne].
  - by rewrite lookup_insert_eq.
  - by rewrite lookup_insert_ne.
Qed.

Lemma odict_get_elem d k v : odict.get d k = Some v -> (k, v) ∈ d.
Proof.
  rewrite odict_get_list_to_map. apply elem_of_list_to_map_2.
Qed.

Lemma odict_elem_get d k v : NoDup d.*1 -> (k, v) ∈ d -> odict.get d k = Some v.
Proof.
  rewrite odict_get_list_to_map. apply elem_of_list_to_map_1.
Qed.

Lemma odict_get_set d k v k' :
  odict.get (odict.set d k v) k' =
  if decide (k' = k) then Some v else odict.get d k'.
Proof.
  induction d as [|[k0 v0] d IH]; simpl.
  - by destruct (decide (k' = k)).
  - destruct (decide (k = k0)) as [->|Hne]; simpl.
    + by destruct (decide (k' = k0)).
    + destruct (decide (k' = k0)) as [->|Hne'].
      * by rewrite decide_False.
      * done.
Qed.

Lemma odict_set_keys d k v k' :
  k' ∈ (odict.set d k v).*1 <-> k' = k \/ k' ∈ d.*1.
Proof.
  induction d as [|[k0 v0] d IH]; simpl.
  - rewrite list_elem_of_singleton, elem_of_nil. naive_solver.
  - destruct (decide (k = k0)) as [->|Hne]; simpl;
      rewrite ?elem_of_cons, ?IH; naive_solver.
Qed.

Lemma odict_set_NoDup d k v : NoDup d.*1 -> NoDup (odict.set d k v).*1.
Proof.
  induction d as [|[k0 v0] d IH]; simpl; intros Hnd.
  - apply NoDup_singleton.
  - apply NoDup_cons in Hnd as [Hk0 Hnd].
    destruct (decide (k = k0)) as [->|Hne]; simpl.
    + by apply NoDup_cons.
    + apply NoDup_cons. split; [|by apply IH].
      rewrite odict_set_keys. intros [->|?]; done.
Qed.

End odict_facts.

(** ** Construction *)

Lemma fresh_inj h d n n' p :
  fresh h d -> odict.get d n = Some p -> odict.get d n' = Some p -> n = n'.
Proof.
  intros [_ Hobj] H1 H2.
  apply Hobj in H1. apply Hobj in H2.
  rewrite H1 in H2. by injection H2.
Qed.

Lemma make_states_spec names :
  forall h d, fresh h d ->
    fresh (make_states names h d).1 (make_states names h d).2 /\
    forall n, is_Some (odict.get (make_states names h d).2 n) <->
              n ∈ names \/ is_Some (odict.get d n).
Proof.
  induction names as [|name names IH]; intros h d [Hnd Hobj]; simpl.
  - split; [done|]. intros n. rewrite elem_of_nil. tauto.
  - destruct (IH (h ++ [State.__init__ name]) (odict.set d name (length h)))
      as [Hfresh Hdom].
    { split; [by apply odict_set_NoDup|].
      intros n p. rewrite odict_get_set.
      destruct (decide (n = name)) as [->|Hne].
      - intros [= <-]. by rewrite list_lookup_middle.
      - intros Hget. apply lookup_app_l_Some. by apply Hobj. }
    split; [done|].
    intros n. rewrite Hdom, odict_get_set, elem_of_cons.
    destruct (decide (n = name)) as [->|Hne].
    + split; [auto|]. intros _. right. by eexists.
    + tauto.
Qed.

Lemma fresh_nil : fresh [] [].
Proof. split; [constructor|]. intros n p. discriminate. Qed.

Lemma compiled_cons d entry rest tr name e :
  compiled d (entry :: rest) tr name e =
  if decide (e = entry) then tr !! (name, e) ≫= odict.get d
  else compiled d rest tr name e.
Proof.
  unfold compiled.
  destruct (decide (e = entry)) as [->|Hne].
  - rewrite decide_True; [done|]. apply elem_of_cons; auto.
  - destruct (decide (e ∈ rest)) as [He|He].
    + rewrite decide_True; [done|]. apply elem_of_cons; auto.
    + rewrite decide_False; [done|]. rewrite elem_of_cons; tauto.
Qed.

Lemma compiled_elem d al tr name e q :
  compiled d al tr name e = Some q ->
  e ∈ al /\ exists sn, tr !! (name, e) = Some sn /\ odict.get d sn = Some q.
Proof.
  unfold compiled. case_decide as He; [|done].
  destruct (tr !! (name, e)) as [sn|]; [|done]. simpl. eauto.
Qed.

(** The inner loop, for the object [s] at address [p]: it either wires
    every entry of [entries] that the table has for [name], or stops at
    the first successor name that is not a key of [d]. *)
Lemma connect_entries_spec d tr name p entries :
  forall h s, h !! p = Some s ->
    match connect_entries d tr name p entries h with
    | Ok h' =>
        (forall e sn, e ∈ entries -> tr !! (name, e) = Some sn ->
                      is_Some (odict.get d sn)) /\
        exists s', h' = <[p := s']> h /\
          State.state s' = State.state s /\
          forall e, State.successors s' !! e =
            from_option Some (State.successors s !! e) (compiled d entries tr name e)
    | Err x =>
        exists e sn, e ∈ entries /\ tr !! (name, e) = Some sn /\
          odict.get d sn = None /\ x = KeyError sn
    end.
Proof.
  induction entries as [|entry rest IH]; intros h s Hp; simpl.
  - split; [intros e sn []%elem_of_nil|].
    exists s. rewrite list_insert_id by done. split; [done|]. split; [done|].
    done.
  - destruct (tr !! (name, entry)) as [sn|] eqn:Htr.
    + unfold odict.getitem.
      destruct (odict.get d sn) as [q|] eqn:Hq; simpl.
      2:{ exists entry, sn. rewrite elem_of_cons. auto. }
      unfold State.set_successor. rewrite Hp. simpl.
      set (s1 := State.set_successor_obj s entry q).
      assert (Hp1 : <[p := s1]> h !! p = Some s1).
      { apply list_lookup_insert_eq. by eapply lookup_lt_Some. }
      specialize (IH _ _ Hp1).
      destruct (connect_entries d tr name p rest (<[p:=s1]> h)) as [h'|x].
      * destruct IH as [Hall (s' & -> & Hst & Hsucc)].
        split.
        { intros e sn' [->|He]%elem_of_cons Hsn'; [|by eauto].
          rewrite Htr in Hsn'. injection Hsn' as <-. by eexists. }
        exists s'. rewrite list_insert_insert_eq. split; [done|].
        split; [done|].
        intros e. rewrite Hsucc, compiled_cons.
        destruct (decide (e = entry)) as [->|Hne].
        { rewrite Htr. cbn. rewrite Hq. cbn.
          unfold compiled. case_decide; [by rewrite Htr; cbn; rewrite Hq|].
          cbn. apply lookup_insert_eq. }
        f_equal. subst s1. cbn. by rewrite lookup_insert_ne.
      * destruct IH as (e & sn' & He & ? & ? & ?).
        exists e, sn'. rewrite elem_of_cons. auto.
    + specialize (IH _ _ Hp).
      destruct (connect_entries d tr name p rest h) as [h'|x].
      * destruct IH as [Hall (s' & -> & Hst & Hsucc)].
        split.
        { intros e sn' [->|He]%elem_of_cons Hsn'; [congruence|by eauto]. }
        exists s'. split; [done|]. split; [done|].
        intros e. rewrite Hsucc, compiled_cons.
        destruct (decide (e = entry)) as [->|Hne]; [|done].
        rewrite Htr. cbn. unfold compiled.
        case_decide; [by rewrite Htr|done].
      * destruct IH as (e & sn' & He & ? & ? & ?).
        exists e, sn'. rewrite elem_of_cons. auto.
Qed.

(** The outer loop, over items at pairwise distinct addresses. *)
Lemma connect_items_spec d tr al items :
  forall h, NoDup items.*2 ->
    (forall n p, (n, p) ∈ items -> is_Some (h !! p)) ->
    match connect_items d tr al items h with
    | Ok h' =>
        (forall n p e sn, (n, p) ∈ items -> e ∈ al ->
           tr !! (n, e) = Some sn -> is_Some (odict.get d sn)) /\
        (forall q, q ∉ items.*2 -> h' !! q = h !! q) /\
        (forall n p s, (n, p) ∈ items -> h !! p = Some s ->
           exists s', h' !! p = Some s' /\
             State.state s' = State.state s /\
             forall e, State.successors s' !! e =
               from_option Some (State.successors s !! e) (compiled d al tr n e))
    | Err x =>
        exists n p e sn, (n, p) ∈ items /\ e ∈ al /\
          tr !! (n, e) = Some sn /\ odict.get d sn = None /\ x = KeyError sn
    end.
Proof.
  induction items as [|[name p] rest IH]; intros h Hnd Hdef; simpl.
  - split; [intros n p e sn []%elem_of_nil|].
    split; [done|]. intros n p s []%elem_of_nil.
  - apply NoDup_cons in Hnd as [Hp Hnd].
    destruct (Hdef name p) as [s Hs]; [apply elem_of_cons; auto|].
    pose proof (connect_entries_spec d tr name p al h s Hs) as Hin.
    destruct (connect_entries d tr name p al h) as [h1|x]; simpl.
    2:{ destruct Hin as (e & sn & ? & ? & ? & ?).
        exists name, p, e, sn. rewrite elem_of_cons. auto. }
    destruct Hin as [Hall (s' & -> & Hst & Hsucc)].
    assert (Hlt : p < length h) by by eapply lookup_lt_Some.
    assert (Hrest : forall n q, (n, q) ∈ rest -> q <> p).
    { intros n q Hq ->. apply Hp.
      apply list_elem_of_fmap. by exists (n, p). }
    specialize (IH (<[p:=s']> h) Hnd).
    destruct (connect_items d tr al rest (<[p:=s']> h)) as [h'|x].
    + destruct IH as (Hall' & Hout & Hobj).
      { intros n q Hq. rewrite list_lookup_insert_ne by (symmetry; eauto).
        apply (Hdef n q). apply elem_of_cons; auto. }
      split; [|split].
      * intros n q e sn [[= -> ->]|Hq]%elem_of_cons; [apply Hall|by apply (Hall' n q)].
      * intros q [Hqp Hq]%not_elem_of_cons.
        rewrite Hout by done. by apply list_lookup_insert_ne.
      * intros n q s0 [[= -> ->]|Hq]%elem_of_cons Hs0.
        { exists s'. rewrite Hout by done.
          rewrite list_lookup_insert_eq by done.
          rewrite Hs in Hs0. injection Hs0 as <-. done. }
        apply (Hobj n q s0 Hq).
        rewrite list_lookup_insert_ne by (symmetry; eauto). done.
    + destruct IH as (n & q & e & sn & ? & ? & ? & ? & ?).
      { intros n q Hq. rewrite list_lookup_insert_ne by (symmetry; eauto).
        apply (Hdef n q). apply elem_of_cons; auto. }
      exists n, q, e, sn. rewrite elem_of_cons. auto.
Qed.

Lemma fresh_values_NoDup h d : fresh h d -> NoDup d.*2.
Proof.
  intros Hf. pose proof Hf as [Hnd _].
  apply NoDup_fmap_2_strong; [|by apply NoDup_fmap_1 in Hnd].
  intros [n p] [n' p'] Hin Hin' Heq. simpl in Heq. subst p'.
  apply (odict_elem_get _ _ _ Hnd) in Hin, Hin'.
  by rewrite (fresh_inj _ _ _ _ _ Hf Hin Hin').
Qed.

(** [Automaton.__init__] either returns an object wired from the table,
    or raises [KeyError] on a name that is not declared: the initial one,
    or the successor of an entry the loops consult. *)
Lemma Automaton__init__spec c sts i al tr :
  match Automaton__init__ c sts i al tr with
  | Ok a =>
      i ∈ sts /\
      (forall n e sn, n ∈ sts -> e ∈ al -> tr !! (n, e) = Some sn -> sn ∈ sts) /\
      built c sts i al tr a
  | Err x =>
      exists k, x = KeyError k /\ (k ∉ sts) /\
        (k = i \/ exists n e, n ∈ sts /\ e ∈ al /\ tr !! (n, e) = Some k)
  end.
Proof.
  unfold Automaton__init__.
  destruct (make_states_spec sts [] [] fresh_nil) as [Hfresh Hdom].
  destruct (make_states sts [] []) as [h d]. simpl in Hfresh, Hdom.
  assert (Hkeys : forall n, is_Some (odict.get d n) <-> n ∈ sts).
  { intros n. rewrite Hdom. simpl. split; [intros [?|[? [=]]]; done|auto]. }
  unfold odict.getitem at 1.
  destruct (odict.get d i) as [cur|] eqn:Hi; simpl.
  2:{ exists i. split; [done|]. split; [|auto].
      rewrite <- Hkeys, Hi. by intros [? ?]. }
  unfold Automaton__connect_states.
  pose proof Hfresh as [Hnd Hobj].
  pose proof (connect_items_spec d tr al d h (fresh_values_NoDup _ _ Hfresh)) as Hc.
  destruct (connect_items d tr al d h) as [h'|x]; simpl.
  - destruct Hc as (Hall & _ & Hwired).
    { intros n p Hin. apply (odict_elem_get _ _ _ Hnd), Hobj in Hin. by eexists. }
    split; [apply Hkeys; by eexists|].
    split.
    { intros n e sn [p Hp]%Hkeys He Htr. apply Hkeys.
      apply (Hall n p e sn); [by apply odict_get_elem|done..]. }
    split; simpl; try done.
    intros n p Hp.
    destruct (Hwired n p (State.__init__ n)) as (s' & Hs' & Hst & Hsucc);
      [by apply odict_get_elem|by apply Hobj|].
    exists s'. split; [done|]. split; [done|].
    intros e. rewrite Hsucc. simpl. rewrite lookup_empty.
    by destruct (compiled d al tr n e).
  - destruct Hc as (n & p & e & sn & Hin & He & Htr & Hsn & ->).
    { intros n p Hin. apply (odict_elem_get _ _ _ Hnd), Hobj in Hin. by eexists. }
    exists sn. split; [done|]. split.
    + rewrite <- Hkeys, Hsn. by intros [? ?].
    + right. exists n, e. split; [|done].
      apply Hkeys. exists p. by apply odict_elem_get.
Qed.

(** ** Running the methods *)

Lemma get_state_run a t s :
  heap a !! curr_state a = Some s ->
  Automaton__get_state (a, t) = (Ok (State.state s), (a, t)).
Proof. intros Hs. unfold Automaton__get_state, bind, self. simpl. by rewrite Hs. Qed.

Lemma set_state_run a t name :
  Automaton__set_state name (a, t) =
  match odict.get (states a) name with
  | Some p => (Ok tt, (with_curr_state a p, t))
  | None => (Err (KeyError name), (a, t))
  end.
Proof.
  unfold Automaton__set_state, bind, self, lift, odict.getitem. simpl.
  by destruct (odict.get (states a) name).
Qed.

Lemma process_invalid a t e :
  e ∉ input_alphabet a ->
  Automaton_process e (a, t) = (Err invalid_input, (a, t)).
Proof.
  intros He. unfold Automaton_process, bind, self. simpl.
  by rewrite bool_decide_eq_false_2.
Qed.

Lemma process_Automaton a t e s :
  class a = Automaton -> e ∈ input_alphabet a ->
  heap a !! curr_state a = Some s ->
  Automaton_process e (a, t) =
  (Ok tt, (with_curr_state a (next_of (curr_state a) s e), t)).
Proof.
  intros Hc He Hs.
  unfold Automaton_process, _exit_state, _enter_state, bind, self. simpl.
  rewrite bool_decide_eq_true_2 by done. simpl. rewrite Hc. simpl.
  unfold lift, State.process. rewrite Hs. simpl. by rewrite Hc.
Qed.

Lemma process_Moore a t e s s' f :
  class a = MooreAutomaton -> output_func a = Some f ->
  e ∈ input_alphabet a ->
  heap a !! curr_state a = Some s ->
  heap a !! next_of (curr_state a) s e = Some s' ->
  Automaton_process e (a, t) =
  (match f t [State.state s'] with None => Ok tt | Some x => Err x end,
   (with_curr_state a (next_of (curr_state a) s e), t ++ [[State.state s']])).
Proof.
  intros Hc Hf He Hs Hs'.
  unfold Automaton_process, _exit_state, _enter_state, bind, self. simpl.
  rewrite bool_decide_eq_true_2 by done. simpl. rewrite Hc. simpl.
  unfold lift, State.process. rewrite Hs. simpl. rewrite Hc.
  unfold MooreAutomaton_enter_state, bind.
  rewrite (get_state_run _ _ s') by done.
  unfold call_output_func. simpl. rewrite Hf.
  by destruct (f t [State.state s']).
Qed.

Lemma process_Mealy a t e s f :
  class a = MealyAutomaton -> output_func a = Some f ->
  e ∈ input_alphabet a ->
  heap a !! curr_state a = Some s ->
  Automaton_process e (a, t) =
  match f t [State.state s; e] with
  | None => (Ok tt, (with_curr_state a (next_of (curr_state a) s e),
                     t ++ [[State.state s; e]]))
  | Some x => (Err x, (a, t ++ [[State.state s; e]]))
  end.
Proof.
  intros Hc Hf He Hs.
  unfold Automaton_process, _exit_state, _enter_state, bind, self. simpl.
  rewrite bool_decide_eq_true_2 by done. simpl. rewrite Hc.
  unfold MealyAutomaton_exit_state, bind.
  rewrite (get_state_run _ _ s) by done.
  unfold call_output_func. simpl. rewrite Hf.
  destruct (f t [State.state s; e]); [done|].
  unfold lift, State.process. simpl. rewrite Hs. simpl. by rewrite Hc.
Qed.

(** ** The invariant of a constructed automaton *)

Section invariant.

Context (sts : list value) (i : value) (al : list value) (tr : table).

Lemma built_inv a : built Automaton sts i al tr a -> inv sts al tr a.
Proof.
  intros [Hc Hf Hal Hk Hcur Hobj].
  split; try done; [by exists i|by left].
Qed.

Lemma built_inv_output_func c a f :
  built c sts i al tr a -> inv sts al tr (set_output_func a f).
Proof.
  intros [Hc Hf Hal Hk Hcur Hobj].
  split; simpl; try done; [by exists i|right; by eexists].
Qed.

Lemma inv_with_curr_state a p :
  inv sts al tr a -> (exists n, odict.get (states a) n = Some p) ->
  inv sts al tr (with_curr_state a p).
Proof. intros [Hal Hk Hobj Hcur Hf] Hp. by split. Qed.

(** The object under the cursor. *)
Lemma inv_cursor_obj a :
  inv sts al tr a ->
  exists s, heap a !! curr_state a = Some s /\
    odict.get (states a) (State.state s) = Some (curr_state a) /\
    State.state s ∈ sts /\
    forall e, State.successors s !! e = compiled (states a) al tr (State.state s) e.
Proof.
  intros Hinv. destruct (inv_cursor _ _ _ _ Hinv) as [n Hn].
  destruct (inv_objects _ _ _ _ Hinv n _ Hn) as (s & Hs & <- & Hsucc).
  exists s. split; [done|]. split; [done|]. split; [|done].
  apply (inv_keys _ _ _ _ Hinv). by eexists.
Qed.

(** The successor of a declared object is a declared object. *)
Lemma inv_next a s e :
  inv sts al tr a -> heap a !! curr_state a = Some s ->
  exists n, odict.get (states a) n = Some (next_of (curr_state a) s e).
Proof.
  intros Hinv Hs.
  destruct (inv_cursor_obj a Hinv) as (s0 & Hs0 & Hget & _ & Hsucc).
  rewrite Hs in Hs0. injection Hs0 as <-.
  unfold next_of. rewrite Hsucc.
  destruct (compiled (states a) al tr (State.state s) e) as [q|] eqn:Hq; simpl.
  - apply compiled_elem in Hq as (_ & sn & _ & Hsn). by exists sn.
  - by eexists.
Qed.

Lemma inv_next_obj a s e :
  inv sts al tr a -> heap a !! curr_state a = Some s ->
  exists s', heap a !! next_of (curr_state a) s e = Some s' /\
    odict.get (states a) (State.state s') = Some (next_of (curr_state a) s e).
Proof.
  intros Hinv Hs. destruct (inv_next a s e Hinv Hs) as [n Hn].
  destruct (inv_objects _ _ _ _ Hinv n _ Hn) as (s' & Hs' & <- & _).
  by exists s'.
Qed.

(** Every operation keeps the invariant, whether it returns or raises. *)
Lemma exec_inv o a t :
  inv sts al tr a -> inv sts al tr (exec o (a, t)).2.1.
Proof.
  intros Hinv.
  destruct (inv_cursor_obj a Hinv) as (s & Hs & Hget & _ & Hsucc).
  destruct o as [e|n|]; simpl.
  - destruct (decide (e ∈ input_alphabet a)) as [He|He].
    2:{ by rewrite process_invalid. }
    destruct (inv_next_obj a s e Hinv Hs) as (s' & Hs' & Hn').
    assert (Hmove : inv sts al tr (with_curr_state a (next_of (curr_state a) s e))).
    { apply inv_with_curr_state; [done|by eexists]. }
    destruct (inv_output_func _ _ _ _ Hinv) as [Hc|[f Hf]].
    { by rewrite (process_Automaton a t e s). }
    destruct (class a) eqn:Hc.
    + by rewrite (process_Automaton a t e s).
    + by rewrite (process_Moore a t e s s' f).
    + rewrite (process_Mealy a t e s f) by done.
      by destruct (f t [State.state s; e]).
  - rewrite set_state_run.
    destruct (odict.get (states a) n) as [p|] eqn:Hp; simpl; [|done].
    apply inv_with_curr_state; [done|by eexists].
  - unfold bind. by rewrite (get_state_run a t s).
Qed.

(** The tail of the subclass constructors, once the base constructor has
    returned. *)
Lemma enter_None_Moore a f t :
  class a = MooreAutomaton ->
  forall s, heap a !! curr_state a = Some s ->
  new (_enter_state VNone (set_output_func a f, t)) =
  (match f t [State.state s] with
   | None => Ok (set_output_func a f)
   | Some x => Err x
   end, t ++ [[State.state s]]).
Proof.
  intros Hc s Hs. unfold new, _enter_state, bind, self. simpl.
  rewrite Hc. unfold MooreAutomaton_enter_state, bind.
  rewrite (get_state_run _ _ s) by done.
  unfold call_output_func. simpl.
  by destruct (f t [State.state s]).
Qed.

Lemma enter_None_Mealy a f t :
  class a = MealyAutomaton ->
  new (_enter_state VNone (set_output_func a f, t)) = (Ok (set_output_func a f), t).
Proof.
  intros Hc. unfold new, _enter_state, bind, self. simpl.
  by rewrite Hc.
Qed.

Lemma built_cursor_obj c a :
  built c sts i al tr a ->
  exists s, heap a !! curr_state a = Some s /\ State.state s = i.
Proof.
  intros Hb. destruct (built_objects _ _ _ _ _ _ Hb i _ (built_cursor _ _ _ _ _ _ Hb))
    as (s & Hs & Hst & _).
  by exists s.
Qed.

Lemma reachable_inv w : reachable sts i al tr w -> inv sts al tr w.1.
Proof.
  induction 1 as [a t0 Hinit|f t0 a t1 Hinit|f t0 a t1 Hinit|o [a t] Hreach IH].
  - pose proof (Automaton__init__spec Automaton sts i al tr) as Hspec.
    rewrite Hinit in Hspec. destruct Hspec as (_ & _ & Hb).
    by apply built_inv.
  - unfold MooreAutomaton__init__ in Hinit.
    pose proof (Automaton__init__spec MooreAutomaton sts i al tr) as Hspec.
    destruct (Automaton__init__ MooreAutomaton sts i al tr) as [a0|x]; [|done].
    destruct Hspec as (_ & _ & Hb).
    destruct (built_cursor_obj _ _ Hb) as (s & Hs & _).
    rewrite (enter_None_Moore a0 f t0 (built_class _ _ _ _ _ _ Hb) s Hs) in Hinit.
    destruct (f t0 [State.state s]); [done|].
    injection Hinit as <- <-. by eapply built_inv_output_func.
  - unfold MealyAutomaton__init__ in Hinit.
    pose proof (Automaton__init__spec MealyAutomaton sts i al tr) as Hspec.
    destruct (Automaton__init__ MealyAutomaton sts i al tr) as [a0|x]; [|done].
    destruct Hspec as (_ & _ & Hb).
    rewrite (enter_None_Mealy a0 f t0 (built_class _ _ _ _ _ _ Hb)) in Hinit.
    injection Hinit as <- <-. by eapply built_inv_output_func.
  - by apply exec_inv.
Qed.

End invariant.

(** ** The example automata *)

Lemma ex_Automaton_init :
  Automaton__init__ Automaton ex_states st_A ex_alphabet ex_transition =
  Ok (ex_object Automaton None 0).
Proof. reflexivity. Qed.

Lemma ex_Moore_init f :
  f [] [st_A] = None ->
  MooreAutomaton__init__ ex_states st_A ex_alphabet ex_transition f [] =
  (Ok (ex_object MooreAutomaton (Some f) 0), [[st_A]]).
Proof.
  intros Hf. unfold MooreAutomaton__init__.
  replace (Automaton__init__ MooreAutomaton ex_states st_A ex_alphabet ex_transition)
    with (Ok (ex_object MooreAutomaton None 0)) by reflexivity.
  rewrite (enter_None_Moore (ex_object MooreAutomaton None 0) f [] eq_refl
             _ eq_refl).
  simpl. by rewrite Hf.
Qed.

Lemma ex_Mealy_init f t :
  MealyAutomaton__init__ ex_states st_A ex_alphabet ex_transition f t =
  (Ok (ex_object MealyAutomaton (Some f) 0), t).
Proof. reflexivity. Qed.

Lemma ex_reach_Automaton t :
  reachable ex_states st_A ex_alphabet ex_transition (ex_object Automaton None 0, t).
Proof. apply reach_Automaton, ex_Automaton_init. Qed.

Lemma ex_reach_Moore f :
  f [] [st_A] = None ->
  reachable ex_states st_A ex_alphabet ex_transition
    (ex_object MooreAutomaton (Some f) 0, [[st_A]]).
Proof. intros Hf. by apply (reach_Moore _ _ _ _ f []), ex_Moore_init. Qed.

Lemma ex_reach_Mealy f t :
  reachable ex_states st_A ex_alphabet ex_transition
    (ex_object MealyAutomaton (Some f) 0, t).
Proof. apply (reach_Mealy _ _ _ _ f t), ex_Mealy_init. Qed.

(** Inputs 0,1,1,0 on the Moore automaton, and 0,1 on the Mealy one. *)
Example Moore_scenario :
  (run [VInt 0; VInt 1; VInt 1; VInt 0]
     (ex_object MooreAutomaton (Some quiet) 0, [[st_A]])).2 =
  [[st_A]; [st_B]; [st_A]; [st_A]; [st_B]].
Proof. reflexivity. Qed.

Example Mealy_scenario :
  (run [VInt 0; VInt 1] (ex_object MealyAutomaton (Some quiet) 0, [])).2 =
  [[st_A; VInt 0]; [st_B; VInt 1]].
Proof. reflexivity. Qed.

(** ** Stepping *)

(** C1 (totality of stepping).  In every reachable world, for every symbol
    [e] of the alphabet, the cursor is at a declared state [s] and
    [process(e)] does not fail on the transition: it returns, or the
    exception is the one the output callback raised (an object of the
    base class has no callback: it returns).  If the successors of [s]
    have no entry for [e], the cursor is the same after the call; and they
    have none when the transition table has none for that state and
    symbol. *)
Theorem process_total sts i al tr w e :
  reachable sts i al tr w -> e ∈ al ->
  exists s,
    heap w.1 !! curr_state w.1 = Some s /\ State.state s ∈ sts /\
    ((Automaton_process e w).1 = Ok tt \/
     exists f args x, output_func w.1 = Some f /\ f w.2 args = Some x /\
       (Automaton_process e w).1 = Err x) /\
    (class w.1 = Automaton -> (Automaton_process e w).1 = Ok tt) /\
    (State.successors s !! e = None ->
       curr_state (Automaton_process e w).2.1 = curr_state w.1) /\
    (tr !! (State.state s, e) = None -> State.successors s !! e = None).
Proof.
  intros Hreach He. destruct w as [a t]. simpl.
  pose proof (reachable_inv _ _ _ _ _ Hreach) as Hinv. simpl in Hinv.
  destruct (inv_cursor_obj _ _ _ a Hinv) as (s & Hs & _ & Hdecl & Hsucc).
  destruct (inv_next_obj _ _ _ a s e Hinv Hs) as (s' & Hs' & _).
  rewrite <- (inv_alphabet _ _ _ _ Hinv) in He.
  exists s. split; [done|]. split; [done|].
  assert (Hloop : State.successors s !! e = None ->
                  next_of (curr_state a) s e = curr_state a).
  { intros Hnone. unfold next_of. by rewrite Hnone. }
  assert (Htable : tr !! (State.state s, e) = None ->
                   State.successors s !! e = None).
  { intros Hnone. rewrite Hsucc. unfold compiled.
    case_decide; [by rewrite Hnone|done]. }
  destruct (inv_output_func _ _ _ _ Hinv) as [Hc|[f Hf]].
  { rewrite (process_Automaton a t e s) by done. simpl. auto. }
  destruct (class a) eqn:Hc.
  - rewrite (process_Automaton a t e s) by done. simpl. auto.
  - rewrite (process_Moore a t e s s' f) by done. simpl.
    split; [|by auto].
    destruct (f t [State.state s']) as [x|] eqn:Hx; [|by left].
    right. by exists f, [State.state s'], x.
  - rewrite (process_Mealy a t e s f) by done.
    destruct (f t [State.state s; e]) as [x|] eqn:Hx; simpl.
    + split; [|by auto]. right. by exists f, [State.state s; e], x.
    + auto.
Qed.

Lemma process_total_witness :
  let w : world := (ex_object Automaton None 0, []) in
  let e := VInt 1 in
  exists s,
    heap w.1 !! curr_state w.1 = Some s /\ State.state s ∈ ex_states /\
    ((Automaton_process e w).1 = Ok tt \/
     exists f args x, output_func w.1 = Some f /\ f w.2 args = Some x /\
       (Automaton_process e w).1 = Err x) /\
    (class w.1 = Automaton -> (Automaton_process e w).1 = Ok tt) /\
    (State.successors s !! e = None ->
       curr_state (Automaton_process e w).2.1 = curr_state w.1) /\
    (ex_transition !! (State.state s, e) = None -> State.successors s !! e = None).
Proof.
  apply (process_total ex_states st_A ex_alphabet ex_transition).
  - apply ex_reach_Automaton.
  - unfold ex_alphabet. apply elem_of_cons. right. apply elem_of_cons. by left.
Defined.

(** C2 (alphabet enforcement).  For a symbol outside the alphabet,
    [process] raises the invalid-input [ValueError] and reading
    [current_state] gives the same after the call as before: the cursor,
    and the whole object, are unchanged. *)
Theorem process_rejects_unknown_symbol sts i al tr w e :
  reachable sts i al tr w -> e ∉ al ->
  (Automaton_process e w).1 = Err invalid_input /\
  (Automaton__get_state (Automaton_process e w).2).1 = (Automaton__get_state w).1 /\
  (Automaton_process e w).2.1 = w.1.
Proof.
  intros Hreach He. destruct w as [a t].
  pose proof (reachable_inv _ _ _ _ _ Hreach) as Hinv. simpl in Hinv.
  rewrite <- (inv_alphabet _ _ _ _ Hinv) in He.
  by rewrite process_invalid.
Qed.

Lemma process_rejects_unknown_symbol_witness :
  let w : world := (ex_object MealyAutomaton (Some quiet) 0, []) in
  let e := VInt 2 in
  (Automaton_process e w).1 = Err invalid_input /\
  (Automaton__get_state (Automaton_process e w).2).1 = (Automaton__get_state w).1 /\
  (Automaton_process e w).2.1 = w.1.
Proof.
  apply (process_rejects_unknown_symbol ex_states st_A ex_alphabet ex_transition).
  - apply ex_reach_Mealy.
  - by apply not_elem_of_cons; split; [|apply not_elem_of_cons; split;
      [|apply not_elem_of_nil]].
Defined.

(** C10 (no output on invalid input).  For a symbol outside the alphabet,
    [process] raises before either hook runs: the trace of callback
    invocations is the same after the call, for an object of any class
    and any callback, and the exception is the invalid-input one, not
    one of the callback. *)
Theorem unknown_symbol_no_callback sts i al tr w e :
  reachable sts i al tr w -> e ∉ al ->
  Automaton_process e w =
    raise (ValueError "Unspecified input, not accepted by this automaton!") w /\
  (Automaton_process e w).2.2 = w.2.
Proof.
  intros Hreach He. destruct w as [a t].
  pose proof (reachable_inv _ _ _ _ _ Hreach) as Hinv. simpl in Hinv.
  rewrite <- (inv_alphabet _ _ _ _ Hinv) in He.
  by rewrite process_invalid.
Qed.

Lemma unknown_symbol_no_callback_witness :
  let w : world := (ex_object MooreAutomaton (Some once) 0, [[st_A]]) in
  let e := VNone in
  Automaton_process e w =
    raise (ValueError "Unspecified input, not accepted by this automaton!") w /\
  (Automaton_process e w).2.2 = w.2.
Proof.
  apply (unknown_symbol_no_callback ex_states st_A ex_alphabet ex_transition).
  - by apply ex_reach_Moore.
  - by apply not_elem_of_cons; split; [|apply not_elem_of_cons; split;
      [|apply not_elem_of_nil]].
Defined.

(** ** The cursor *)

(** C9 (cursor invariant).  In every world reachable by a successful
    construction followed by any operations, returning or raising, the
    cursor refers to a [State] object that is a value of [self.states]. *)
Theorem cursor_always_in_states sts i al tr w :
  reachable sts i al tr w ->
  exists name s,
    odict.get (states w.1) name = Some (curr_state w.1) /\
    heap w.1 !! curr_state w.1 = Some s /\ State.state s = name.
Proof.
  intros Hreach.
  pose proof (reachable_inv _ _ _ _ _ Hreach) as Hinv.
  destruct (inv_cursor_obj _ _ _ _ Hinv) as (s & Hs & Hget & _).
  by exists (State.state s), s.
Qed.

Lemma cursor_always_in_states_witness :
  let w : world :=
    (exec (SetCurrentState (VStr "C"))
       (exec (Process (VInt 0))
          (ex_object MooreAutomaton (Some once) 0, [[st_A]])).2).2 in
  exists name s,
    odict.get (states w.1) name = Some (curr_state w.1) /\
    heap w.1 !! curr_state w.1 = Some s /\ State.state s = name.
Proof.
  apply (cursor_always_in_states ex_states st_A ex_alphabet ex_transition).
  apply reach_exec, reach_exec. by apply ex_reach_Moore.
Defined.

(** C8 (cursor accessor).  In every reachable world: assigning a declared
    name to [current_state] returns, leaves the trace of callback
    invocations as it was, and moves the cursor to the object [self.states]
    has for that name, so that reading [current_state] then yields the
    name; assigning an undeclared name raises [KeyError] and changes
    nothing; reading [current_state] returns the name of the object under
    the cursor. *)
Theorem current_state_property sts i al tr w :
  reachable sts i al tr w ->
  (forall n, n ∈ sts ->
     exists p, odict.get (states w.1) n = Some p /\
       Automaton__set_state n w = (Ok tt, (with_curr_state w.1 p, w.2)) /\
       Automaton__get_state (with_curr_state w.1 p, w.2) =
         (Ok n, (with_curr_state w.1 p, w.2))) /\
  (forall n, n ∉ sts -> Automaton__set_state n w = (Err (KeyError n), w)) /\
  (exists s, heap w.1 !! curr_state w.1 = Some s /\
     Automaton__get_state w = (Ok (State.state s), w)).
Proof.
  intros Hreach. destruct w as [a t]. simpl.
  pose proof (reachable_inv _ _ _ _ _ Hreach) as Hinv. simpl in Hinv.
  split; [|split].
  - intros n [p Hp]%(inv_keys _ _ _ _ Hinv).
    exists p. split; [done|]. rewrite set_state_run, Hp. split; [done|].
    destruct (inv_objects _ _ _ _ Hinv n p Hp) as (s & Hs & <- & _).
    by apply get_state_run.
  - intros n Hn. rewrite set_state_run.
    destruct (odict.get (states a) n) as [p|] eqn:Hp; [|done].
    destruct Hn. apply (inv_keys _ _ _ _ Hinv). by eexists.
  - destruct (inv_cursor_obj _ _ _ _ Hinv) as (s & Hs & _).
    exists s. split; [done|]. by apply get_state_run.
Qed.

Lemma current_state_property_witness :
  let w : world := (ex_object MooreAutomaton (Some once) 0, [[st_A]]) in
  (forall n, n ∈ ex_states ->
     exists p, odict.get (states w.1) n = Some p /\
       Automaton__set_state n w = (Ok tt, (with_curr_state w.1 p, w.2)) /\
       Automaton__get_state (with_curr_state w.1 p, w.2) =
         (Ok n, (with_curr_state w.1 p, w.2))) /\
  (forall n, n ∉ ex_states -> Automaton__set_state n w = (Err (KeyError n), w)) /\
  (exists s, heap w.1 !! curr_state w.1 = Some s /\
     Automaton__get_state w = (Ok (State.state s), w)).
Proof.
  apply (current_state_property ex_states st_A ex_alphabet ex_transition).
  by apply ex_reach_Moore.
Defined.

(** ** The output hooks *)

(** C4 (Moore emission order).  When the configuration is valid, the
    [MooreAutomaton] constructor invokes the output callback exactly once,
    with the initial state's name, whether the callback returns or raises;
    when the constructor returns, that name is the current state.  In every
    reachable world of a [MooreAutomaton], a [process] call that returns
    has invoked the callback exactly once, with the name of the current
    state after the move. *)
Theorem Moore_emission sts i al tr :
  (forall f t0,
     is_Ok (Automaton__init__ MooreAutomaton sts i al tr) = true ->
     (MooreAutomaton__init__ sts i al tr f t0).2 = t0 ++ [[i]]) /\
  (forall f t0 a t1,
     MooreAutomaton__init__ sts i al tr f t0 = (Ok a, t1) ->
     t1 = t0 ++ [[i]] /\ Automaton__get_state (a, t1) = (Ok i, (a, t1))) /\
  (forall w e w',
     reachable sts i al tr w -> class w.1 = MooreAutomaton ->
     Automaton_process e w = (Ok tt, w') ->
     exists n, Automaton__get_state w' = (Ok n, w') /\ w'.2 = w.2 ++ [[n]]).
Proof.
  assert (Hinit : forall f t0 a0,
            Automaton__init__ MooreAutomaton sts i al tr = Ok a0 ->
            exists s, heap a0 !! curr_state a0 = Some s /\ State.state s = i /\
              MooreAutomaton__init__ sts i al tr f t0 =
              (match f t0 [i] with
               | None => Ok (set_output_func a0 f)
               | Some x => Err x
               end, t0 ++ [[i]])).
  { intros f t0 a0 Ha0. unfold MooreAutomaton__init__.
    pose proof (Automaton__init__spec MooreAutomaton sts i al tr) as Hspec.
    rewrite Ha0 in Hspec |- *. destruct Hspec as (_ & _ & Hb).
    destruct (built_cursor_obj _ _ _ _ _ _ Hb) as (s & Hs & Hname).
    exists s. split; [done|]. split; [done|].
    rewrite (enter_None_Moore a0 f t0 (built_class _ _ _ _ _ _ Hb) s Hs).
    by rewrite Hname. }
  split; [|split].
  - intros f t0 Hok.
    destruct (Automaton__init__ MooreAutomaton sts i al tr) as [a0|x] eqn:Ha0;
      [|done].
    destruct (Hinit f t0 a0 eq_refl) as (s & _ & _ & ->). done.
  - intros f t0 a t1 Hrun.
    destruct (Automaton__init__ MooreAutomaton sts i al tr) as [a0|x] eqn:Ha0.
    2:{ unfold MooreAutomaton__init__ in Hrun. by rewrite Ha0 in Hrun. }
    destruct (Hinit f t0 a0 eq_refl) as (s & Hs & Hname & Heq).
    rewrite Heq in Hrun. destruct (f t0 [i]); [done|].
    injection Hrun as <- <-. split; [done|].
    rewrite <- Hname. by apply get_state_run.
  - intros [a t] e w' Hreach Hc Hrun. simpl in Hc.
    pose proof (reachable_inv _ _ _ _ _ Hreach) as Hinv. simpl in Hinv.
    destruct (decide (e ∈ input_alphabet a)) as [He|He].
    2:{ by rewrite process_invalid in Hrun. }
    destruct (inv_cursor_obj _ _ _ a Hinv) as (s & Hs & _).
    destruct (inv_next_obj _ _ _ a s e Hinv Hs) as (s' & Hs' & _).
    destruct (inv_output_func _ _ _ _ Hinv) as [Hc'|[f Hf]]; [congruence|].
    rewrite (process_Moore a t e s s' f) in Hrun by done.
    injection Hrun as _ <-. exists (State.state s'). split; [|done].
    by apply get_state_run.
Qed.

Lemma Moore_emission_witness :
  let w : world := (ex_object MooreAutomaton (Some quiet) 0, [[st_A]]) in
  let w' : world := (ex_object MooreAutomaton (Some quiet) 1, [[st_A]; [st_B]]) in
  exists n, Automaton__get_state w' = (Ok n, w') /\ w'.2 = w.2 ++ [[n]].
Proof.
  apply (proj2 (proj2 (Moore_emission ex_states st_A ex_alphabet ex_transition))
           (ex_object MooreAutomaton (Some quiet) 0, [[st_A]]) (VInt 0)).
  - by apply ex_reach_Moore.
  - reflexivity.
  - reflexivity.
Defined.

(** C5 (Mealy emission content).  In every reachable world of a
    [MealyAutomaton], a [process(e)] call that returns has invoked the
    callback exactly once, with the name that [current_state] had before
    the call and with [e].  The invocation precedes the move: when the
    symbol is in the alphabet and the call does not return, the callback
    has been invoked with these arguments and the object is as before. *)
Theorem Mealy_emission sts i al tr w e r w' :
  reachable sts i al tr w -> class w.1 = MealyAutomaton ->
  Automaton_process e w = (r, w') ->
  exists n, Automaton__get_state w = (Ok n, w) /\
    (r = Ok tt -> w'.2 = w.2 ++ [[n; e]]) /\
    (e ∈ al -> r <> Ok tt -> w'.2 = w.2 ++ [[n; e]] /\ w'.1 = w.1).
Proof.
  destruct w as [a t]. simpl. intros Hreach Hc Hrun.
  pose proof (reachable_inv _ _ _ _ _ Hreach) as Hinv. simpl in Hinv.
  destruct (inv_cursor_obj _ _ _ a Hinv) as (s & Hs & _).
  exists (State.state s). split; [by apply get_state_run|].
  destruct (decide (e ∈ input_alphabet a)) as [He|He].
  2:{ rewrite process_invalid in Hrun by done. injection Hrun as <- <-.
      split; [done|]. intros Hal. by rewrite (inv_alphabet _ _ _ _ Hinv) in He. }
  destruct (inv_output_func _ _ _ _ Hinv) as [Hc'|[f Hf]]; [congruence|].
  rewrite (process_Mealy a t e s f) in Hrun by done.
  destruct (f t [State.state s; e]); injection Hrun as <- <-; simpl.
  - split; [done|]. by intros _ _.
  - split; [done|]. by intros _ [].
Qed.

Lemma Mealy_emission_witness :
  let w : world := (ex_object MealyAutomaton (Some once) 1, [[st_A; VInt 0]]) in
  let e := VInt 1 in
  exists n, Automaton__get_state w = (Ok n, w) /\
    ((Automaton_process e w).1 = Ok tt ->
       (Automaton_process e w).2.2 = w.2 ++ [[n; e]]) /\
    (e ∈ ex_alphabet -> (Automaton_process e w).1 <> Ok tt ->
       (Automaton_process e w).2.2 = w.2 ++ [[n; e]] /\
       (Automaton_process e w).2.1 = w.1).
Proof.
  apply (Mealy_emission ex_states st_A ex_alphabet ex_transition
           (exec (Process (VInt 0)) (ex_object MealyAutomaton (Some once) 0, [])).2).
  - apply reach_exec, ex_reach_Mealy.
  - reflexivity.
  - reflexivity.
Defined.

(** C6, as the code has it.  The [MealyAutomaton] constructor runs the
    enter hook with [None], which [MealyAutomaton] does not override: the
    hook returns without invoking the callback, so construction leaves the
    trace as it was and returns the object of the base constructor with
    the callback assigned (or raises what the base constructor raised). *)
Theorem Mealy_init_no_emission sts i al tr f t0 :
  MealyAutomaton__init__ sts i al tr f t0 =
    (match Automaton__init__ MealyAutomaton sts i al tr with
     | Ok a => Ok (set_output_func a f)
     | Err x => Err x
     end, t0) /\
  (forall a t, class a = MealyAutomaton -> _enter_state VNone (a, t) = (Ok tt, (a, t))).
Proof.
  split.
  - unfold MealyAutomaton__init__.
    pose proof (Automaton__init__spec MealyAutomaton sts i al tr) as Hspec.
    destruct (Automaton__init__ MealyAutomaton sts i al tr) as [a0|x]; [|done].
    destruct Hspec as (_ & _ & Hb).
    by rewrite (enter_None_Mealy a0 f t0 (built_class _ _ _ _ _ _ Hb)).
  - intros a t Hc. unfold _enter_state, bind, self. simpl. by rewrite Hc.
Qed.

(** C6 as stated fails: constructing the example [MealyAutomaton] invokes
    the callback zero times, not once with [(A, None)]. *)
Lemma Mealy_init_emits_nothing :
  (MealyAutomaton__init__ ex_states st_A ex_alphabet ex_transition quiet []).2 = [] /\
  (MealyAutomaton__init__ ex_states st_A ex_alphabet ex_transition quiet []).2
    <> [[st_A; VNone]].
Proof. split; [reflexivity|discriminate]. Qed.

(** ** Construction: validation and the entries that are consulted *)

Lemma connect_entries_ext d tr tr' name p entries :
  (forall e, e ∈ entries -> tr !! (name, e) = tr' !! (name, e)) ->
  forall h, connect_entries d tr name p entries h =
            connect_entries d tr' name p entries h.
Proof.
  induction entries as [|entry rest IH]; intros Hext h; simpl; [done|].
  rewrite <- (Hext entry) by (apply elem_of_cons; auto).
  assert (Hrest : forall e, e ∈ rest -> tr !! (name, e) = tr' !! (name, e)).
  { intros e He. apply Hext, elem_of_cons. auto. }
  destruct (tr !! (name, entry)) as [sn|]; [|by apply IH].
  destruct (odict.getitem d sn) as [q|x]; simpl; [|done].
  destruct (State.set_successor h p entry q) as [h1|x]; simpl; [|done].
  by apply IH.
Qed.

Lemma connect_items_ext d tr tr' al items :
  (forall n e, e ∈ al -> tr !! (n, e) = tr' !! (n, e)) ->
  forall h, connect_items d tr al items h = connect_items d tr' al items h.
Proof.
  intros Hext. induction items as [|[name p] rest IH]; intros h; simpl; [done|].
  rewrite (connect_entries_ext d tr tr' name p al) by (intros e; apply Hext).
  destruct (connect_entries d tr' name p al h) as [h1|x]; simpl; [|done].
  apply IH.
Qed.

(** The constructor reads the table only at symbols of the alphabet. *)
Lemma Automaton__init__ext c sts i al tr tr' :
  (forall n e, e ∈ al -> tr !! (n, e) = tr' !! (n, e)) ->
  Automaton__init__ c sts i al tr = Automaton__init__ c sts i al tr'.
Proof.
  intros Hext. unfold Automaton__init__, Automaton__connect_states.
  destruct (make_states sts [] []) as [h d].
  destruct (odict.getitem d i) as [cur|x]; simpl; [|done].
  by rewrite (connect_items_ext d tr tr' al d Hext).
Qed.

(** C7 (entries outside the alphabet).  An entry of the transition table
    whose symbol is not in the alphabet is never consulted: the constructor
    of each class returns the same object, or raises the same exception,
    with the entry and without it, whatever successor the entry names. *)
Theorem entry_outside_alphabet_ignored c sts i al tr n e :
  e ∉ al ->
  Automaton__init__ c sts i al tr = Automaton__init__ c sts i al (delete (n, e) tr) /\
  (forall sn, Automaton__init__ c sts i al (<[(n, e) := sn]> tr) =
              Automaton__init__ c sts i al (delete (n, e) tr)) /\
  (forall f t, MooreAutomaton__init__ sts i al tr f t =
               MooreAutomaton__init__ sts i al (delete (n, e) tr) f t) /\
  (forall f t, MealyAutomaton__init__ sts i al tr f t =
               MealyAutomaton__init__ sts i al (delete (n, e) tr) f t).
Proof.
  intros He.
  assert (Hdel : forall c', Automaton__init__ c' sts i al tr =
                            Automaton__init__ c' sts i al (delete (n, e) tr)).
  { intros c'. apply Automaton__init__ext. intros n' e' He'.
    rewrite lookup_delete_ne; [done|]. intros [= -> ->]. done. }
  split; [apply Hdel|]. split.
  - intros sn. apply Automaton__init__ext. intros n' e' He'.
    rewrite lookup_insert_ne, lookup_delete_ne; [done|..];
      intros [= -> ->]; done.
  - unfold MooreAutomaton__init__, MealyAutomaton__init__.
    split; intros f t; by rewrite Hdel.
Qed.

Lemma entry_outside_alphabet_ignored_witness :
  let tr : table := <[(st_A, VInt 2) := VStr "Z"]> ex_transition in
  Automaton__init__ Automaton ex_states st_A ex_alphabet tr =
    Automaton__init__ Automaton ex_states st_A ex_alphabet (delete (st_A, VInt 2) tr) /\
  (forall sn, Automaton__init__ Automaton ex_states st_A ex_alphabet
                (<[(st_A, VInt 2) := sn]> tr) =
              Automaton__init__ Automaton ex_states st_A ex_alphabet
                (delete (st_A, VInt 2) tr)) /\
  (forall f t, MooreAutomaton__init__ ex_states st_A ex_alphabet tr f t =
               MooreAutomaton__init__ ex_states st_A ex_alphabet
                 (delete (st_A, VInt 2) tr) f t) /\
  (forall f t, MealyAutomaton__init__ ex_states st_A ex_alphabet tr f t =
               MealyAutomaton__init__ ex_states st_A ex_alphabet
                 (delete (st_A, VInt 2) tr) f t).
Proof.
  apply (entry_outside_alphabet_ignored Automaton ex_states st_A ex_alphabet).
  by apply not_elem_of_cons; split; [|apply not_elem_of_cons; split;
    [|apply not_elem_of_nil]].
Defined.

(** C3, as the code has it.  [Automaton.__init__] raises exactly when the
    initial name is not declared, or some entry of the table for a
    declared state and a symbol of the alphabet names a successor that is
    not declared; what it raises is then [KeyError] on an undeclared name,
    and the subclass constructors raise it too, without invoking the
    callback.  Entries for other states or symbols are not validated. *)
Theorem construction_raises_iff c sts i al tr :
  ((exists x, Automaton__init__ c sts i al tr = Err x) <->
   i ∉ sts \/
   exists n e sn, n ∈ sts /\ e ∈ al /\ tr !! (n, e) = Some sn /\ sn ∉ sts) /\
  (forall x, Automaton__init__ c sts i al tr = Err x ->
     (exists k, x = KeyError k /\ k ∉ sts) /\
     forall f t,
       (MooreAutomaton__init__ sts i al tr f t).1 = Err x /\
       (MooreAutomaton__init__ sts i al tr f t).2 = t /\
       (MealyAutomaton__init__ sts i al tr f t).1 = Err x /\
       (MealyAutomaton__init__ sts i al tr f t).2 = t).
Proof.
  pose proof (Automaton__init__spec c sts i al tr) as Hspec.
  split; [split|].
  - intros [x Hx]. rewrite Hx in Hspec.
    destruct Hspec as (k & -> & Hk & [->|(n & e & Hn & He & Htr)]); [by left|].
    right. by exists n, e, k.
  - intros Hbad.
    destruct (Automaton__init__ c sts i al tr) as [a|x]; [|by eexists].
    destruct Hspec as (Hi & Hall & _).
    destruct Hbad as [Hni|(n & e & sn & Hn & He & Htr & Hsn)]; [done|].
    destruct Hsn. by apply (Hall n e sn).
  - intros x Hx. split.
    { rewrite Hx in Hspec. destruct Hspec as (k & -> & Hk & _). by exists k. }
    assert (Hc : forall c', Automaton__init__ c' sts i al tr = Err x).
    { intros c'. revert Hx. unfold Automaton__init__.
      destruct (make_states sts [] []) as [h d].
      destruct (odict.getitem d i) as [cur|y]; simpl; [|done].
      by destruct (Automaton__connect_states d al tr h). }
    intros f t. unfold MooreAutomaton__init__, MealyAutomaton__init__.
    by rewrite !Hc.
Qed.

(** C3 as stated fails: an entry whose symbol is not in the alphabet
    names an undeclared successor, and construction returns. *)
Lemma construction_accepts_unread_entry :
  let tr : table := <[(st_A, VInt 1) := VStr "Z"]> ∅ in
  tr !! (st_A, VInt 1) = Some (VStr "Z") /\
  (VStr "Z" ∉ [st_A]) /\
  is_Ok (Automaton__init__ Automaton [st_A] st_A [VInt 0] tr) = true.
Proof.
  split; [reflexivity|]. split; [|reflexivity].
  by apply not_elem_of_cons; split; [|apply not_elem_of_nil].
Qed.

(** ** The automaton computes the transition function of its table *)

(** A table that a constructor accepted names declared successors
    wherever it is consulted. *)
Lemma reachable_table_valid sts i al tr w :
  reachable sts i al tr w ->
  forall n e sn, n ∈ sts -> e ∈ al -> tr !! (n, e) = Some sn -> sn ∈ sts.
Proof.
  assert (Hbase : forall c a, Automaton__init__ c sts i al tr = Ok a ->
            forall n e sn, n ∈ sts -> e ∈ al -> tr !! (n, e) = Some sn -> sn ∈ sts).
  { intros c a Ha. pose proof (Automaton__init__spec c sts i al tr) as Hspec.
    rewrite Ha in Hspec. by destruct Hspec as (_ & Hall & _). }
  induction 1 as [a t0 Hinit|f t0 a t1 Hinit|f t0 a t1 Hinit|o w Hreach IH].
  - by eapply Hbase.
  - unfold MooreAutomaton__init__ in Hinit.
    destruct (Automaton__init__ MooreAutomaton sts i al tr) as [a0|x] eqn:Ha0;
      [by eapply Hbase|done].
  - unfold MealyAutomaton__init__ in Hinit.
    destruct (Automaton__init__ MealyAutomaton sts i al tr) as [a0|x] eqn:Ha0;
      [by eapply Hbase|done].
  - done.
Qed.

(** The object [State.process] returns for an accepted symbol carries the
    name the table gives, or the same name when the table has no entry. *)
Lemma next_obj sts i al tr a t s e :
  reachable sts i al tr (a, t) ->
  heap a !! curr_state a = Some s -> e ∈ al ->
  exists s', heap a !! next_of (curr_state a) s e = Some s' /\
    State.state s' = default (State.state s) (tr !! (State.state s, e)).
Proof.
  intros Hreach Hs He.
  pose proof (reachable_inv _ _ _ _ _ Hreach) as Hinv. simpl in Hinv.
  destruct (inv_cursor_obj _ _ _ a Hinv) as (s0 & Hs0 & _ & Hdecl & Hsucc).
  rewrite Hs in Hs0. injection Hs0 as <-.
  unfold next_of. rewrite Hsucc. unfold compiled. rewrite decide_True by done.
  destruct (tr !! (State.state s, e)) as [sn|] eqn:Htr; simpl; [|by exists s].
  assert (Hsn : sn ∈ sts) by by eapply reachable_table_valid.
  apply (inv_keys _ _ _ _ Hinv) in Hsn as [q Hq]. rewrite Hq. simpl.
  destruct (inv_objects _ _ _ _ Hinv sn q Hq) as (s' & Hs' & Hname & _).
  by exists s'.
Qed.

(** The name under the cursor, as [current_state] reads it. *)
Lemma reachable_current sts i al tr a t n :
  reachable sts i al tr (a, t) ->
  (Automaton__get_state (a, t)).1 = Ok n ->
  exists s, heap a !! curr_state a = Some s /\ State.state s = n.
Proof.
  intros Hreach Hn.
  pose proof (reachable_inv _ _ _ _ _ Hreach) as Hinv. simpl in Hinv.
  destruct (inv_cursor_obj _ _ _ a Hinv) as (s & Hs & _).
  rewrite (get_state_run a t s Hs) in Hn. simpl in Hn. injection Hn as <-.
  by exists s.
Qed.

Lemma delta_accepted al tr n e :
  e ∈ al -> delta al tr n e = default n (tr !! (n, e)).
Proof. intros He. unfold delta. by rewrite decide_True. Qed.

Lemma delta_rejected al tr n e : e ∉ al -> delta al tr n e = n.
Proof. intros He. unfold delta. by rewrite decide_False. Qed.

(** One [process] call in a reachable world, by the class of the object. *)
Lemma process_step sts i al tr a t s e :
  reachable sts i al tr (a, t) ->
  heap a !! curr_state a = Some s ->
  (e ∉ al -> Automaton_process e (a, t) = (Err invalid_input, (a, t))) /\
  (e ∈ al ->
   exists s', heap a !! next_of (curr_state a) s e = Some s' /\
     State.state s' = default (State.state s) (tr !! (State.state s, e)) /\
     match class a with
     | Automaton =>
         Automaton_process e (a, t) =
         (Ok tt, (with_curr_state a (next_of (curr_state a) s e), t))
     | MooreAutomaton =>
         exists f, output_func a = Some f /\
           Automaton_process e (a, t) =
           (match f t [State.state s'] with None => Ok tt | Some x => Err x end,
            (with_curr_state a (next_of (curr_state a) s e),
             t ++ [[State.state s']]))
     | MealyAutomaton =>
         exists f, output_func a = Some f /\
           Automaton_process e (a, t) =
           match f t [State.state s; e] with
           | None => (Ok tt, (with_curr_state a (next_of (curr_state a) s e),
                              t ++ [[State.state s; e]]))
           | Some x => (Err x, (a, t ++ [[State.state s; e]]))
           end
     end).
Proof.
  intros Hreach Hs.
  pose proof (reachable_inv _ _ _ _ _ Hreach) as Hinv. simpl in Hinv.
  pose proof (inv_alphabet _ _ _ _ Hinv) as Hal.
  split.
  - intros He. apply process_invalid. by rewrite Hal.
  - intros He. destruct (next_obj _ _ _ _ a t s e Hreach Hs He) as (s' & Hs' & Hname).
    exists s'. split; [done|]. split; [done|].
    rewrite <- Hal in He.
    destruct (class a) eqn:Hc.
    + by apply process_Automaton.
    + destruct (inv_output_func _ _ _ _ Hinv) as [Hc'|[f Hf]]; [congruence|].
      exists f. split; [done|]. by apply process_Moore.
    + destruct (inv_output_func _ _ _ _ Hinv) as [Hc'|[f Hf]]; [congruence|].
      exists f. split; [done|]. by apply process_Mealy.
Qed.

Lemma with_curr_state_id a : with_curr_state a (curr_state a) = a.
Proof. by destruct a. Qed.

(** A run of [process] calls over the inputs [es]: the object only has
    its cursor moved, to the object named by the transition function
    iterated over [es], and the trace has grown by the outputs of the
    class.  For a [MealyAutomaton] this needs a callback that returns. *)
Lemma run_spec sts i al tr es :
  forall a t s,
    reachable sts i al tr (a, t) ->
    heap a !! curr_state a = Some s ->
    (class a = MealyAutomaton -> callback_returns a) ->
    exists p s',
      run es (a, t) =
        (with_curr_state a p,
         t ++ outputs_of (class a) al tr (State.state s) es) /\
      heap a !! p = Some s' /\
      State.state s' = foldl (delta al tr) (State.state s) es.
Proof.
  induction es as [|e es IH]; intros a t s Hreach Hs Hcb; simpl.
  - exists (curr_state a), s. rewrite with_curr_state_id.
    split; [|done]. f_equal. destruct (class a); by rewrite app_nil_r.
  - destruct (process_step _ _ _ _ a t s e Hreach Hs) as [Hrej Hacc].
    pose proof (reach_exec _ _ _ _ (Process e) _ Hreach) as Hreach'.
    simpl in Hreach'.
    destruct (decide (e ∈ al)) as [He|He].
    2:{ rewrite (Hrej He). simpl. rewrite (delta_rejected _ _ _ _ He).
        destruct (IH a t s Hreach Hs Hcb) as (p & s' & Hrun & Hp).
        exists p, s'. split; [|done]. rewrite Hrun. f_equal. f_equal.
        destruct (class a); simpl; by rewrite ?decide_False. }
    destruct (Hacc He) as (s' & Hs' & Hname & Hstep).
    rewrite (delta_accepted _ _ _ _ He), <- Hname.
    set (a1 := with_curr_state a (next_of (curr_state a) s e)) in *.
    destruct (class a) eqn:Hc.
    + rewrite Hstep in Hreach' |- *. simpl in Hreach' |- *.
      destruct (IH a1 t s' Hreach' Hs') as (p & s'' & Hrun & Hp);
        [by subst a1; simpl; rewrite Hc|].
      exists p, s''. split; [|done]. rewrite Hrun.
      subst a1. simpl. by rewrite Hc.
    + destruct Hstep as (f & Hf & Hstep).
      rewrite Hstep in Hreach' |- *. simpl in Hreach' |- *.
      destruct (IH a1 (t ++ [[State.state s']]) s' Hreach' Hs') as (p & s'' & Hrun & Hp);
        [by subst a1; simpl; rewrite Hc|].
      exists p, s''. split; [|done]. etrans; [exact Hrun|].
      subst a1. simpl. rewrite Hc. simpl.
      rewrite decide_True by done. rewrite (delta_accepted _ _ _ _ He), <- Hname.
      by rewrite <- app_assoc.
    + destruct Hstep as (f & Hf & Hstep).
      rewrite (Hcb eq_refl f Hf) in Hstep.
      rewrite Hstep in Hreach' |- *. simpl in Hreach' |- *.
      destruct (IH a1 (t ++ [[State.state s; e]]) s' Hreach' Hs') as (p & s'' & Hrun & Hp).
      { subst a1. simpl. intros _ f' Hf'. by apply (Hcb eq_refl). }
      exists p, s''. split; [|done]. etrans; [exact Hrun|].
      subst a1. simpl. rewrite Hc. simpl.
      rewrite decide_True by done. rewrite (delta_accepted _ _ _ _ He), <- Hname.
      by rewrite <- app_assoc.
Qed.

(** X1 (a step follows the table).  In every reachable world, a [process(e)]
    call that returns was given a symbol of the alphabet, and afterwards
    [current_state] is the successor the transition table gives for the
    state before the call and [e], or that same state when the table has
    no entry; it is a declared state. *)
Theorem process_follows_table sts i al tr w e n w' :
  reachable sts i al tr w ->
  (Automaton__get_state w).1 = Ok n ->
  Automaton_process e w = (Ok tt, w') ->
  e ∈ al /\
  Automaton__get_state w' = (Ok (default n (tr !! (n, e))), w') /\
  default n (tr !! (n, e)) ∈ sts.
Proof.
  destruct w as [a t]. intros Hreach Hn Hrun.
  destruct (reachable_current _ _ _ _ a t n Hreach Hn) as (s & Hs & <-).
  destruct (process_step _ _ _ _ a t s e Hreach Hs) as [Hrej Hacc].
  destruct (decide (e ∈ al)) as [He|He]; [|by rewrite (Hrej He) in Hrun].
  split; [done|].
  destruct (Hacc He) as (s' & Hs' & <- & Hstep).
  assert (Hget : forall t', Automaton__get_state
            (with_curr_state a (next_of (curr_state a) s e), t') =
            (Ok (State.state s'), (with_curr_state a (next_of (curr_state a) s e), t'))).
  { intros t'. by apply get_state_run. }
  assert (Hdecl : State.state s' ∈ sts).
  { pose proof (reach_exec _ _ _ _ (Process e) _ Hreach) as Hreach'.
    simpl in Hreach'. rewrite Hrun in Hreach'. simpl in Hreach'.
    pose proof (reachable_inv _ _ _ _ _ Hreach') as Hinv'.
    destruct (inv_cursor_obj _ _ _ _ Hinv') as (s1 & Hs1 & _ & Hd & _).
    destruct (class a); [|destruct Hstep as (f & _ & Hstep)..];
      rewrite Hstep in Hrun.
    - injection Hrun as <-. simpl in Hs1. rewrite Hs' in Hs1. by injection Hs1 as <-.
    - injection Hrun as _ <-. simpl in Hs1. rewrite Hs' in Hs1. by injection Hs1 as <-.
    - destruct (f t [State.state s; e]); [done|].
      injection Hrun as <-. simpl in Hs1. rewrite Hs' in Hs1. by injection Hs1 as <-. }
  split; [|done].
  destruct (class a); [|destruct Hstep as (f & _ & Hstep)..];
    rewrite Hstep in Hrun.
  - injection Hrun as <-. apply Hget.
  - injection Hrun as _ <-. apply Hget.
  - destruct (f t [State.state s; e]); [done|]. injection Hrun as <-. apply Hget.
Qed.

Lemma process_follows_table_witness :
  let w : world := (ex_object MealyAutomaton (Some quiet) 0, []) in
  let w' : world := (ex_object MealyAutomaton (Some quiet) 1, [[st_A; VInt 0]]) in
  VInt 0 ∈ ex_alphabet /\
  Automaton__get_state w' =
    (Ok (default st_A (ex_transition !! (st_A, VInt 0))), w') /\
  default st_A (ex_transition !! (st_A, VInt 0)) ∈ ex_states.
Proof.
  apply (process_follows_table ex_states st_A ex_alphabet ex_transition
           (ex_object MealyAutomaton (Some quiet) 0, [])).
  - apply ex_reach_Mealy.
  - reflexivity.
  - reflexivity.
Defined.

(** X2 (a Moore automaton moves before it emits).  In every reachable
    world of a [MooreAutomaton], a [process(e)] call with [e] in the
    alphabet moves the cursor to the successor state and invokes the
    callback once with its name, whether the callback then returns or
    raises: after a failing callback the automaton is in the new state. *)
Theorem Moore_moves_before_output sts i al tr w e n :
  reachable sts i al tr w -> class w.1 = MooreAutomaton -> e ∈ al ->
  (Automaton__get_state w).1 = Ok n ->
  (Automaton__get_state (Automaton_process e w).2).1 =
    Ok (default n (tr !! (n, e))) /\
  (Automaton_process e w).2.2 = w.2 ++ [[default n (tr !! (n, e))]].
Proof.
  destruct w as [a t]. simpl. intros Hreach Hc He Hn.
  destruct (reachable_current _ _ _ _ a t n Hreach Hn) as (s & Hs & <-).
  destruct (process_step _ _ _ _ a t s e Hreach Hs) as [_ Hacc].
  destruct (Hacc He) as (s' & Hs' & <- & Hstep).
  rewrite Hc in Hstep. destruct Hstep as (f & _ & ->). simpl.
  split; [|done]. by rewrite (get_state_run _ _ s').
Qed.

Lemma Moore_moves_before_output_witness :
  let w : world := (ex_object MooreAutomaton (Some once) 0, [[st_A]]) in
  let e := VInt 0 in
  (Automaton_process e w).1 = Err (Raised VNone) /\
  (Automaton__get_state (Automaton_process e w).2).1 =
    Ok (default st_A (ex_transition !! (st_A, e))) /\
  (Automaton_process e w).2.2 = w.2 ++ [[default st_A (ex_transition !! (st_A, e))]].
Proof.
  split; [reflexivity|].
  apply (Moore_moves_before_output ex_states st_A ex_alphabet ex_transition
           (ex_object MooreAutomaton (Some once) 0, [[st_A]])).
  - by apply ex_reach_Moore.
  - reflexivity.
  - apply elem_of_cons. by left.
  - reflexivity.
Defined.

(** X3 (a run computes the iterated transition function).  In every
    reachable world, after feeding any inputs [es] to [process], whatever
    each call's outcome, [current_state] is the transition function of
    the table iterated over [es] from the state before, symbols outside
    the alphabet being skipped; for a [MealyAutomaton] provided its
    callback returns. *)
Theorem run_final_state sts i al tr w es n :
  reachable sts i al tr w ->
  (class w.1 = MealyAutomaton -> callback_returns w.1) ->
  (Automaton__get_state w).1 = Ok n ->
  (Automaton__get_state (run es w)).1 = Ok (foldl (delta al tr) n es).
Proof.
  destruct w as [a t]. simpl. intros Hreach Hcb Hn.
  destruct (reachable_current _ _ _ _ a t n Hreach Hn) as (s & Hs & <-).
  destruct (run_spec _ _ _ _ es a t s Hreach Hs Hcb) as (p & s' & -> & Hp & <-).
  by rewrite (get_state_run _ _ s').
Qed.

Lemma run_final_state_witness :
  let w : world := (ex_object Automaton None 0, []) in
  let es := [VInt 0; VInt 7; VInt 0; VInt 1; VInt 1] in
  (Automaton__get_state (run es w)).1 =
    Ok (foldl (delta ex_alphabet ex_transition) st_A es).
Proof.
  apply (run_final_state ex_states st_A ex_alphabet ex_transition).
  - apply ex_reach_Automaton.
  - discriminate.
  - reflexivity.
Defined.

(** X4 (outputs of a Moore run).  In every reachable world of a
    [MooreAutomaton], feeding the inputs [es] to [process] invokes the
    callback once per symbol of the alphabet, in order, with the name of
    the state entered, and not at all for the other symbols; this does
    not depend on what the callback does. *)
Theorem Moore_run_outputs sts i al tr w es n :
  reachable sts i al tr w -> class w.1 = MooreAutomaton ->
  (Automaton__get_state w).1 = Ok n ->
  (run es w).2 = w.2 ++ moore_outputs al tr n es.
Proof.
  destruct w as [a t]. simpl. intros Hreach Hc Hn.
  destruct (reachable_current _ _ _ _ a t n Hreach Hn) as (s & Hs & <-).
  destruct (run_spec _ _ _ _ es a t s Hreach Hs) as (p & s' & -> & _);
    [by rewrite Hc|].
  by rewrite Hc.
Qed.

Lemma Moore_run_outputs_witness :
  let w : world := (ex_object MooreAutomaton (Some once) 0, [[st_A]]) in
  let es := [VInt 0; VInt 2; VInt 1] in
  (run es w).2 = w.2 ++ moore_outputs ex_alphabet ex_transition st_A es.
Proof.
  apply (Moore_run_outputs ex_states st_A ex_alphabet ex_transition).
  - by apply ex_reach_Moore.
  - reflexivity.
  - reflexivity.
Defined.

(** X5 (outputs of a Mealy run).  In every reachable world of a
    [MealyAutomaton] whose callback returns, feeding the inputs [es] to
    [process] invokes the callback once per symbol of the alphabet, in
    order, with the name of the state left and the symbol, and not at all
    for the other symbols. *)
Theorem Mealy_run_outputs sts i al tr w es n :
  reachable sts i al tr w -> class w.1 = MealyAutomaton ->
  callback_returns w.1 ->
  (Automaton__get_state w).1 = Ok n ->
  (run es w).2 = w.2 ++ mealy_outputs al tr n es.
Proof.
  destruct w as [a t]. simpl. intros Hreach Hc Hcb Hn.
  destruct (reachable_current _ _ _ _ a t n Hreach Hn) as (s & Hs & <-).
  destruct (run_spec _ _ _ _ es a t s Hreach Hs) as (p & s' & -> & _); [done|].
  by rewrite Hc.
Qed.

Lemma Mealy_run_outputs_witness :
  let w : world := (ex_object MealyAutomaton (Some quiet) 0, []) in
  let es := [VInt 0; VNone; VInt 1; VInt 1] in
  (run es w).2 = w.2 ++ mealy_outputs ex_alphabet ex_transition st_A es.
Proof.
  apply (Mealy_run_outputs ex_states st_A ex_alphabet ex_transition).
  - apply ex_reach_Mealy.
  - reflexivity.
  - intros f [= <-] t args. reflexivity.
  - reflexivity.
Defined.



(** ** What the operations leave alone *)

(** Closes the cases of the frame property below. *)
Ltac frame_case :=
  simpl; rewrite ?with_curr_state_id;
  repeat split;
  first [ done
        | by left
        | by right; eexists
        | intros [?|?]; [congruence|tauto]
        | discriminate ].

(** X7 (only the cursor moves).  Whatever the world, after an operation,
    returning or raising, the object is the one before with at most its
    cursor changed: the [State] objects, [self.states], the alphabet, the
    class and the callback are as they were.  The callback has been
    invoked at most once; not at all by an object of the base class, nor
    by reading or assigning [current_state]; and reading changes
    nothing. *)
Theorem exec_changes_only_cursor o w :
  (exec o w).2.1 = with_curr_state w.1 (curr_state (exec o w).2.1) /\
  ((exec o w).2.2 = w.2 \/ exists args, (exec o w).2.2 = w.2 ++ [args]) /\
  (class w.1 = Automaton \/ (forall e, o <> Process e) -> (exec o w).2.2 = w.2) /\
  (o = GetCurrentState -> (exec o w).2 = w).
Proof.
  destruct w as [a t].
  destruct o as [e|n|]; simpl.
  - assert (Hno : (forall e', Process e <> Process e') -> False)
      by (intros H; by apply (H e)).
    unfold Automaton_process, _exit_state, _enter_state,
      MooreAutomaton_enter_state, MealyAutomaton_exit_state,
      Automaton_enter_state, Automaton_exit_state, Automaton__get_state,
      call_output_func, set_curr_state, State.process, bind, self, lift,
      ret, raise.
    simpl.
    destruct (bool_decide (e ∈ input_alphabet a)); simpl; [|frame_case].
    destruct (class a) eqn:Hc; simpl;
      destruct (heap a !! curr_state a) as [s|] eqn:Hs; simpl;
      rewrite ?Hc; simpl; try frame_case.
    + destruct (heap a !! default (curr_state a) (State.successors s !! e))
        as [s'|]; simpl; [|frame_case].
      destruct (output_func a) as [f|] eqn:Hf; simpl; [|frame_case].
      destruct (f t [State.state s']); frame_case.
    + destruct (output_func a) as [f|] eqn:Hf; simpl; [|frame_case].
      destruct (f t [State.state s; e]); simpl; [frame_case|].
      rewrite Hs. simpl. rewrite Hc. frame_case.
  - rewrite set_state_run.
    destruct (odict.get (states a) n); frame_case.
  - unfold Automaton__get_state, bind, self, ret, raise. simpl.
    destruct (heap a !! curr_state a); frame_case.
Qed.

(** X8 (reading then assigning back).  In every reachable world,
    assigning to [current_state] the name just read from it returns and
    leaves the world exactly as it was: the name under the cursor is a key
    of [self.states], and that key refers to the object under the
    cursor. *)
Theorem current_state_write_back sts i al tr w :
  reachable sts i al tr w ->
  exists n, Automaton__get_state w = (Ok n, w) /\
            Automaton__set_state n w = (Ok tt, w).
Proof.
  destruct w as [a t]. intros Hreach.
  pose proof (reachable_inv _ _ _ _ _ Hreach) as Hinv. simpl in Hinv.
  destruct (inv_cursor_obj _ _ _ a Hinv) as (s & Hs & Hget & _).
  exists (State.state s). split; [by apply get_state_run|].
  by rewrite set_state_run, Hget, with_curr_state_id.
Qed.

Lemma current_state_write_back_witness :
  let w : world :=
    (exec (Process (VInt 0)) (ex_object MealyAutomaton (Some quiet) 0, [])).2 in
  exists n, Automaton__get_state w = (Ok n, w) /\
            Automaton__set_state n w = (Ok tt, w).
Proof.
  apply (current_state_write_back ex_states st_A ex_alphabet ex_transition).
  apply reach_exec, ex_reach_Mealy.
Defined.

(** ** More on construction *)

Lemma make_states_keys sts :
  fresh (make_states sts [] []).1 (make_states sts [] []).2 /\
  forall n, is_Some (odict.get (make_states sts [] []).2 n) <-> n ∈ sts.
Proof.
  destruct (make_states_spec sts [] [] fresh_nil) as [Hfresh Hdom].
  split; [done|]. intros n. rewrite Hdom. simpl.
  split; [intros [?|[? [=]]]; done|auto].
Qed.

(** X9 (the initial state is checked first).  When the initial name is
    not declared, and so whenever no state is declared, each constructor
    raises [KeyError] on the initial name, whatever the table holds, and a
    subclass constructor has not invoked the callback. *)
Theorem undeclared_initial_state_reported c sts i al tr f t :
  i ∉ sts ->
  Automaton__init__ c sts i al tr = Err (KeyError i) /\
  MooreAutomaton__init__ sts i al tr f t = (Err (KeyError i), t) /\
  MealyAutomaton__init__ sts i al tr f t = (Err (KeyError i), t).
Proof.
  intros Hi.
  assert (Hc : forall c', Automaton__init__ c' sts i al tr = Err (KeyError i)).
  { intros c'. unfold Automaton__init__.
    destruct (make_states_keys sts) as [_ Hkeys].
    destruct (make_states sts [] []) as [h d]. simpl in Hkeys.
    unfold odict.getitem.
    destruct (odict.get d i) as [p|] eqn:Hp; [|done].
    destruct Hi. apply Hkeys. by eexists. }
  unfold MooreAutomaton__init__, MealyAutomaton__init__. by rewrite !Hc.
Qed.

Lemma undeclared_initial_state_reported_witness :
  let tr : table := <[(st_A, VInt 0) := VStr "Z"]> ∅ in
  Automaton__init__ Automaton [] st_A [VInt 0] tr = Err (KeyError st_A) /\
  MooreAutomaton__init__ [] st_A [VInt 0] tr quiet [] = (Err (KeyError st_A), []) /\
  MealyAutomaton__init__ [] st_A [VInt 0] tr quiet [] = (Err (KeyError st_A), []).
Proof.
  apply (undeclared_initial_state_reported Automaton [] st_A [VInt 0]).
  apply not_elem_of_nil.
Defined.

Lemma odict_keys_get {V} (d : odict.t V) k :
  k ∈ d.*1 <-> is_Some (odict.get d k).
Proof.
  induction d as [|[k' v'] d IH]; simpl.
  - rewrite elem_of_nil. split; [done|]. by intros [? ?].
  - rewrite elem_of_cons, IH.
    destruct (decide (k = k')) as [->|Hne]; [|tauto].
    split; [by eexists|auto].
Qed.

(** X10 (one object per declared name).  In the object a constructor
    returns, [self.states] has exactly the declared names as keys, each
    once even when a name was declared several times; the keys refer to
    pairwise distinct [State] objects, each carrying the name of its key;
    the alphabet is the one given and the cursor is the object of the
    initial name. *)
Theorem states_one_object_per_name c sts i al tr a :
  Automaton__init__ c sts i al tr = Ok a ->
  NoDup (states a).*1 /\
  (forall n, n ∈ (states a).*1 <-> n ∈ sts) /\
  NoDup (states a).*2 /\
  (forall n p, (n, p) ∈ states a ->
     exists s, heap a !! p = Some s /\ State.state s = n) /\
  input_alphabet a = al /\
  odict.get (states a) i = Some (curr_state a).
Proof.
  intros Ha.
  pose proof (Automaton__init__spec c sts i al tr) as Hspec.
  rewrite Ha in Hspec. destruct Hspec as (_ & _ & Hb).
  assert (Hd : states a = (make_states sts [] []).2).
  { revert Ha. unfold Automaton__init__.
    destruct (make_states sts [] []) as [h d].
    destruct (odict.getitem d i) as [cur|x]; simpl; [|done].
    destruct (Automaton__connect_states d al tr h); simpl; [|done].
    by intros [= <-]. }
  destruct (make_states_keys sts) as [Hfresh Hkeys].
  rewrite <- Hd in Hfresh, Hkeys.
  pose proof Hfresh as [Hnd _].
  split; [done|]. split.
  { intros n. by rewrite odict_keys_get. }
  split; [by eapply fresh_values_NoDup|].
  split.
  { intros n p Hin. apply (odict_elem_get _ _ _ Hnd) in Hin.
    destruct (built_objects _ _ _ _ _ _ Hb n p Hin) as (s & Hs & Hname & _).
    by exists s. }
  split; [apply (built_alphabet _ _ _ _ _ _ Hb)|apply (built_cursor _ _ _ _ _ _ Hb)].
Qed.

Lemma states_one_object_per_name_witness :
  let a :=
    {| class := Automaton;
       heap := [ State.__init__ st_A;
                 {| State.state := st_B; State.successors := <[VInt 1 := 3]> ∅ |};
                 State.__init__ st_A;
                 {| State.state := st_A; State.successors := <[VInt 0 := 1]> ∅ |} ];
       states := [(st_A, 3); (st_B, 1)];
       input_alphabet := ex_alphabet; curr_state := 1; output_func := None |} in
  NoDup (states a).*1 /\
  (forall n, n ∈ (states a).*1 <-> n ∈ [st_A; st_B; st_A; st_A]) /\
  NoDup (states a).*2 /\
  (forall n p, (n, p) ∈ states a ->
     exists s, heap a !! p = Some s /\ State.state s = n) /\
  input_alphabet a = ex_alphabet /\
  odict.get (states a) st_B = Some (curr_state a).
Proof.
  apply (states_one_object_per_name Automaton [st_A; st_B; st_A; st_A] st_B
           ex_alphabet ex_transition).
  reflexivity.
Defined.

Lemma compiled_alphabet d al al' tr n e :
  (forall x, x ∈ al <-> x ∈ al') ->
  compiled d al tr n e = compiled d al' tr n e.
Proof.
  intros Hal. unfold compiled.
  destruct (decide (e ∈ al)) as [He|He].
  - rewrite decide_True; [done|]. by apply Hal.
  - rewrite decide_False; [done|]. by rewrite <- Hal.
Qed.

Lemma State_eq (s1 s2 : State.t) :
  State.state s1 = State.state s2 ->
  (forall e, State.successors s1 !! e = State.successors s2 !! e) ->
  s1 = s2.
Proof.
  destruct s1 as [n1 m1], s2 as [n2 m2]. simpl. intros -> Hm.
  f_equal. by apply map_eq.
Qed.

(** The wiring loops depend on the alphabet only through its elements:
    they raise for the one alphabet exactly when they raise for the
    other, and leave the same store otherwise. *)
Lemma connect_items_alphabet d tr al al' items h :
  NoDup items.*2 ->
  (forall n p, (n, p) ∈ items -> is_Some (h !! p)) ->
  (forall x, x ∈ al <-> x ∈ al') ->
  match connect_items d tr al items h, connect_items d tr al' items h with
  | Ok h1, Ok h2 => h1 = h2
  | Err _, Err _ => True
  | _, _ => False
  end.
Proof.
  intros Hnd Hdef Hal.
  pose proof (connect_items_spec d tr al items h Hnd Hdef) as H1.
  pose proof (connect_items_spec d tr al' items h Hnd Hdef) as H2.
  destruct (connect_items d tr al items h) as [h1|x1],
           (connect_items d tr al' items h) as [h2|x2]; [| | |done].
  - destruct H1 as (_ & Hout1 & Hobj1), H2 as (_ & Hout2 & Hobj2).
    apply list_eq. intros q.
    destruct (decide (q ∈ items.*2)) as [Hq|Hq].
    2:{ by rewrite Hout1, Hout2. }
    apply list_elem_of_fmap in Hq as ([n p] & -> & Hin). simpl.
    destruct (Hdef n p Hin) as [s Hs].
    destruct (Hobj1 n p s Hin Hs) as (s1 & Hl1 & Hn1 & Hs1).
    destruct (Hobj2 n p s Hin Hs) as (s2 & Hl2 & Hn2 & Hs2).
    etrans; [exact Hl1|]. symmetry. etrans; [exact Hl2|].
    f_equal. apply State_eq; [congruence|].
    intros e. by rewrite Hs1, Hs2, (compiled_alphabet d al al').
  - destruct H1 as (Hall & _), H2 as (n & p & e & sn & Hin & He & Htr & Hsn & _).
    apply Hal in He. destruct (Hall n p e sn Hin He Htr) as [q Hq]. congruence.
  - destruct H2 as (Hall & _), H1 as (n & p & e & sn & Hin & He & Htr & Hsn & _).
    apply Hal in He. destruct (Hall n p e sn Hin He Htr) as [q Hq]. congruence.
Qed.

(** X11 (the alphabet as a set).  Two alphabets with the same elements,
    in whatever order and with whatever repetitions, are interchangeable
    at construction: the constructor raises for both or returns for both,
    and then the two objects have the same [State] objects with the same
    successors, the same [self.states] and the same cursor; only the
    stored alphabet is the one given. *)
Theorem alphabet_order_irrelevant c sts i al al' tr :
  (forall x, x ∈ al <-> x ∈ al') ->
  is_Ok (Automaton__init__ c sts i al tr) = is_Ok (Automaton__init__ c sts i al' tr) /\
  forall a a',
    Automaton__init__ c sts i al tr = Ok a ->
    Automaton__init__ c sts i al' tr = Ok a' ->
    a' = {| class := class a; heap := heap a; states := states a;
            input_alphabet := al'; curr_state := curr_state a;
            output_func := output_func a |}.
Proof.
  intros Hal. unfold Automaton__init__, Automaton__connect_states.
  destruct (make_states_keys sts) as [Hfresh _].
  destruct (make_states sts [] []) as [h d]. simpl in Hfresh.
  destruct (odict.getitem d i) as [cur|x]; simpl; [|done].
  pose proof Hfresh as [Hnd Hobj].
  assert (Hdef : forall n p, (n, p) ∈ d -> is_Some (h !! p)).
  { intros n p Hin. apply (odict_elem_get _ _ _ Hnd), Hobj in Hin. by eexists. }
  pose proof (connect_items_alphabet d tr al al' d h
                (fresh_values_NoDup _ _ Hfresh) Hdef Hal) as Heq.
  destruct (connect_items d tr al d h) as [h1|x1],
           (connect_items d tr al' d h) as [h2|x2]; simpl; try done.
  subst h2. split; [done|]. by intros a a' [= <-] [= <-].
Qed.

Lemma alphabet_order_irrelevant_witness :
  let al' := [VInt 1; VInt 0; VInt 1] in
  is_Ok (Automaton__init__ Automaton ex_states st_A ex_alphabet ex_transition) =
  is_Ok (Automaton__init__ Automaton ex_states st_A al' ex_transition) /\
  forall a a',
    Automaton__init__ Automaton ex_states st_A ex_alphabet ex_transition = Ok a ->
    Automaton__init__ Automaton ex_states st_A al' ex_transition = Ok a' ->
    a' = {| class := class a; heap := heap a; states := states a;
            input_alphabet := al'; curr_state := curr_state a;
            output_func := output_func a |}.
Proof.
  apply (alphabet_order_irrelevant Automaton ex_states st_A ex_alphabet
           [VInt 1; VInt 0; VInt 1] ex_transition).
  intros x. unfold ex_alphabet. rewrite !elem_of_cons, !elem_of_nil. tauto.
Defined.

(** ** class State on its own *)

(** X12 (set_successor, then process).  For a [State] object in the
    store: after [set_successor(entry, successor)], [process(entry)]
    returns that successor, the last one set when there were several;
    [process] of any other symbol, and of any symbol on any other object,
    returns what it returned before; and a state that has just been
    created returns itself for every symbol. *)
Theorem set_successor_then_process h p s e q :
  h !! p = Some s ->
  exists h',
    State.set_successor h p e q = Ok h' /\
    State.process h' p e = Ok q /\
    (forall e', e' <> e -> State.process h' p e' = State.process h p e') /\
    (forall p' e', p' <> p -> State.process h' p' e' = State.process h p' e') /\
    (forall q', exists h'',
       State.set_successor h' p e q' = Ok h'' /\ State.process h'' p e = Ok q') /\
    (s = State.__init__ (State.state s) -> forall e', State.process h p e' = Ok p).
Proof.
  intros Hs.
  assert (Hlt : p < length h) by by eapply lookup_lt_Some.
  assert (Hset : forall h0 s0 x, h0 !! p = Some s0 ->
            State.set_successor h0 p e x =
              Ok (<[p := State.set_successor_obj s0 e x]> h0) /\
            State.process (<[p := State.set_successor_obj s0 e x]> h0) p e = Ok x).
  { intros h0 s0 x Hs0. unfold State.set_successor, State.process.
    rewrite Hs0. split; [done|].
    rewrite list_lookup_insert_eq by by eapply lookup_lt_Some.
    simpl. by rewrite lookup_insert_eq. }
  destruct (Hset h s q Hs) as [Hset1 Hproc1].
  exists (<[p := State.set_successor_obj s e q]> h).
  split; [done|]. split; [done|]. split; [|split; [|split]].
  - intros e' Hne. unfold State.process.
    rewrite list_lookup_insert_eq, Hs by done. simpl.
    by rewrite lookup_insert_ne.
  - intros p' e' Hne. unfold State.process.
    by rewrite list_lookup_insert_ne.
  - intros q'. eexists. apply Hset. by apply list_lookup_insert_eq.
  - intros Hnew e'. unfold State.process. rewrite Hs, Hnew. simpl.
    by rewrite lookup_empty.
Qed.

Lemma set_successor_then_process_witness :
  let h := ex_heap in
  let p := 0 in
  let e := VInt 1 in
  let q := 1 in
  exists h',
    State.set_successor h p e q = Ok h' /\
    State.process h' p e = Ok q /\
    (forall e', e' <> e -> State.process h' p e' = State.process h p e') /\
    (forall p' e', p' <> p -> State.process h' p' e' = State.process h p' e') /\
    (forall q', exists h'',
       State.set_successor h' p e q' = Ok h'' /\ State.process h'' p e = Ok q') /\
    ({| State.state := st_A; State.successors := <[VInt 0 := 1]> ∅ |} =
       State.__init__ st_A ->
     forall e', State.process h p e' = Ok p).
Proof.
  apply (set_successor_then_process ex_heap 0
           {| State.state := st_A; State.successors := <[VInt 0 := 1]> ∅ |}
           (VInt 1) 1).
  reflexivity.
Defined.

(** ** Exceptions of the callback *)

(** X13 (the callback decides the outcome of an accepted step).  In every
    reachable world of a subclass object, [process(e)] with [e] in the
    alphabet returns exactly when the callback returns on its one
    invocation, and otherwise raises the callback's exception as it is:
    for a [MooreAutomaton] the invocation is on the name of the successor
    state, for a [MealyAutomaton] on the current name and [e]. *)
Theorem callback_exception_propagates sts i al tr w e n f :
  reachable sts i al tr w -> e ∈ al ->
  (Automaton__get_state w).1 = Ok n ->
  output_func w.1 = Some f -> class w.1 <> Automaton ->
  (Automaton_process e w).1 =
    match f w.2 (match class w.1 with
                 | MealyAutomaton => [n; e]
                 | _ => [default n (tr !! (n, e))]
                 end) with
    | None => Ok tt
    | Some x => Err x
    end.
Proof.
  destruct w as [a t]. simpl. intros Hreach He Hn Hf Hc.
  destruct (reachable_current _ _ _ _ a t n Hreach Hn) as (s & Hs & <-).
  destruct (process_step _ _ _ _ a t s e Hreach Hs) as [_ Hacc].
  destruct (Hacc He) as (s' & Hs' & <- & Hstep).
  destruct (class a); [done|..]; destruct Hstep as (f' & Hf' & ->);
    rewrite Hf in Hf'; injection Hf' as <-; [done|].
  by destruct (f t [State.state s; e]).
Qed.

Lemma callback_exception_propagates_witness :
  let w : world := (ex_object MealyAutomaton (Some once) 1, [[st_A; VInt 0]]) in
  (Automaton_process (VInt 1) w).1 =
    match once w.2 (match class w.1 with
                    | MealyAutomaton => [st_B; VInt 1]
                    | _ => [default st_B (ex_transition !! (st_B, VInt 1))]
                    end) with
    | None => Ok tt
    | Some x => Err x
    end.
Proof.
  apply (callback_exception_propagates ex_states st_A ex_alphabet ex_transition
           (exec (Process (VInt 0)) (ex_object MealyAutomaton (Some once) 0, [])).2).
  - apply reach_exec, ex_reach_Mealy.
  - apply elem_of_cons. right. apply elem_of_cons. by left.
  - reflexivity.
  - reflexivity.
  - discriminate.
Defined.

(** X14 (a raising callback aborts Moore construction).  When the base
    constructor returns, the [MooreAutomaton] constructor invokes the
    callback on the initial name and returns the object with the callback
    assigned exactly when that invocation returns; otherwise it raises the
    callback's exception and its caller gets no object. *)
Theorem Moore_init_propagates sts i al tr f t0 a0 :
  Automaton__init__ MooreAutomaton sts i al tr = Ok a0 ->
  MooreAutomaton__init__ sts i al tr f t0 =
    (match f t0 [i] with
     | None => Ok (set_output_func a0 f)
     | Some x => Err x
     end, t0 ++ [[i]]).
Proof.
  intros Ha0. unfold MooreAutomaton__init__.
  pose proof (Automaton__init__spec MooreAutomaton sts i al tr) as Hspec.
  rewrite Ha0 in Hspec |- *. destruct Hspec as (_ & _ & Hb).
  destruct (built_cursor_obj _ _ _ _ _ _ Hb) as (s & Hs & Hname).
  rewrite (enter_None_Moore a0 f t0 (built_class _ _ _ _ _ _ Hb) s Hs).
  by rewrite Hname.
Qed.

Lemma Moore_init_propagates_witness :
  let f : callback := fun _ _ => Some (Raised (VStr "no")) in
  MooreAutomaton__init__ ex_states st_A ex_alphabet ex_transition f [] =
    (match f [] [st_A] with
     | None => Ok (set_output_func (ex_object MooreAutomaton None 0) f)
     | Some x => Err x
     end, [] ++ [[st_A]]).
Proof.
  apply (Moore_init_propagates ex_states st_A ex_alphabet ex_transition).
  reflexivity.
Defined.
